(** * Workflow orchestration engine: shallow embedding and properties

    The development embeds two Python modules,

    - [adk/agents/base_agent.py]  (AgentStatus, AgentTask, AgentResult,
      BaseAgent.process_task), and
    - [adk/workflows/orchestration_engine.py]  (WorkflowStep, Workflow,
      OrchestrationResult, AgentOrchestrator),

    as pure functions over an explicit [World]: the orchestrator object
    (registered agents and workflows, execution history), the wall clock,
    and a log of the calls made to workers and to [asyncio.sleep].

    Modelling conventions.
    - Python [int] is [Z]; [float] confidences are rationals [Q]; wall-clock
      instants and durations are whole seconds in [Z].
    - [Dict[str, Any]] payloads and contexts are [gmap string pyval]; the
      [results] dictionary of a run, whose iteration order the engine
      observes, is an insertion-ordered association list ([dict_set]).
    - A worker's two abstract coroutines are functions of the worker's own
      recorded history and of the task; they either return or raise.
    - [asyncio.gather] over a wave runs the coroutines one after the other
      in argument order (no interleaving inside a wave).
    - Only exceptions derived from [Exception] are modelled, which
      [process_task] always catches.
    - The [created_at] / [timestamp] stamps and the loguru calls are left
      out: the engine never reads them. *)

Set Warnings "-register-all,-clear-no-such-hyp".
From Stdlib Require Import ZArith QArith.
From stdpp Require Import gmap strings list fin_maps pretty.

Local Open Scope Z_scope.

(* ===================================================================== *)
(** ** base_agent.py: value types                                         *)
(* ===================================================================== *)

Inductive AgentStatus := IDLE | RUNNING | SUCCESS | FAILED | TIMEOUT.

#[global] Instance AgentStatus_eq_dec : EqDecision AgentStatus.
Proof. solve_decision. Defined.

(** [Any]: the values a payload or a context may hold. *)
Inductive pyval :=
  | PyStr (s : string)
  | PyInt (z : Z)
  | PyDict (d : gmap string pyval).

(** [class AgentTask]. *)
Record AgentTask := mkAgentTask {
  task_id : string;
  task_type : string;
  parameters : gmap string pyval;
  context : gmap string pyval;
  deadline : option Z;
  priority : Z
}.

(** [class AgentResult]; [agent_id], [task_id] and [status] carry the
    prefix [res_] because the same field names occur in other classes. *)
Record AgentResult := mkAgentResult {
  res_agent_id : string;
  res_task_id : string;
  res_status : AgentStatus;
  result : gmap string pyval;
  error : option string;
  execution_time : Z;
  confidence : Q;
  metadata : gmap string pyval
}.

(** Exceptions the two modules raise or catch, with [str(e)]. *)
Inductive exn :=
  | TimeoutError                      (* asyncio.TimeoutError *)
  | ValueError (msg : string)
  | RuntimeError (msg : string)
  | UnboundLocalError (msg : string)
  | OtherException (msg : string).

Definition str (e : exn) : string :=
  match e with
  | TimeoutError => ""
  | ValueError m | RuntimeError m | UnboundLocalError m | OtherException m => m
  end.

(** What awaiting a worker coroutine yields. *)
Inductive outcome (A : Type) :=
  | Returned (a : A)
  | Raised (e : exn).
Arguments Returned {A} a.
Arguments Raised {A} e.

(** [class BaseAgent]: the state kept by the base class and the two
    abstract methods.  [execute] also reports the seconds it took. *)
Record BaseAgent := mkBaseAgent {
  agent_id : string;
  agent_name : string;
  capabilities : list string;
  status : AgentStatus;
  task_history : list AgentResult;
  validate_input : list AgentResult -> AgentTask -> outcome bool;
  execute : list AgentResult -> AgentTask -> Z * outcome AgentResult
}.

Definition set_status (s : AgentStatus) (self : BaseAgent) : BaseAgent :=
  {| agent_id := agent_id self; agent_name := agent_name self;
     capabilities := capabilities self; status := s;
     task_history := task_history self;
     validate_input := validate_input self; execute := execute self |}.

Definition history_append (r : AgentResult) (self : BaseAgent) : BaseAgent :=
  {| agent_id := agent_id self; agent_name := agent_name self;
     capabilities := capabilities self; status := status self;
     task_history := task_history self ++ [r];
     validate_input := validate_input self; execute := execute self |}.

Definition set_execution_time (t : Z) (r : AgentResult) : AgentResult :=
  {| res_agent_id := res_agent_id r; res_task_id := res_task_id r;
     res_status := res_status r; result := result r; error := error r;
     execution_time := t; confidence := confidence r;
     metadata := metadata r |}.

(** Calls observable from outside the engine. *)
Inductive event :=
  | EvProcess (agent : string) (task : AgentTask)   (* process_task entered *)
  | EvExecute (agent : string) (task : AgentTask)   (* self.execute awaited *)
  | EvSleep (seconds : Z).                          (* asyncio.sleep awaited *)

(* ===================================================================== *)
(** ** base_agent.py: BaseAgent.process_task                              *)
(* ===================================================================== *)

(** The [AgentResult] built in the two [except] clauses. *)
Definition error_result (self : BaseAgent) (task : AgentTask)
    (st : AgentStatus) (msg : string) (elapsed : Z) : AgentResult :=
  {| res_agent_id := agent_id self; res_task_id := task_id task;
     res_status := st; result := ∅; error := Some msg;
     execution_time := elapsed; confidence := 0%Q; metadata := ∅ |}.

(** [except asyncio.TimeoutError] / [except Exception as e]. *)
Definition handle_exception (self : BaseAgent) (task : AgentTask)
    (e : exn) (elapsed : Z) : BaseAgent * AgentResult :=
  match e with
  | TimeoutError =>
      let r := error_result self task TIMEOUT "Task execution timeout" elapsed in
      (history_append r (set_status TIMEOUT self), r)
  | _ =>
      let r := error_result self task FAILED (str e) elapsed in
      (history_append r (set_status FAILED self), r)
  end.

(** [finally: if self.status == RUNNING: self.status = IDLE]. *)
Definition finally_clause (self : BaseAgent) : BaseAgent :=
  if decide (status self = RUNNING) then set_status IDLE self else self.

(** [process_task self task], entered at instant [start_time].  Returns the
    agent afterwards, the result, the instant of return and the calls made. *)
Definition process_task (self : BaseAgent) (task : AgentTask) (start_time : Z)
    : BaseAgent * AgentResult * Z * list event :=
  let self := set_status RUNNING self in
  let entered := EvProcess (agent_id self) task in
  let '(self, r, now, evs) :=
    match validate_input self (task_history self) task with
    | Raised e =>
        let '(self, r) := handle_exception self task e (start_time - start_time) in
        (self, r, start_time, [entered])
    | Returned false =>
        let e := ValueError ("Invalid task input for " +:+ agent_id self) in
        let '(self, r) := handle_exception self task e (start_time - start_time) in
        (self, r, start_time, [entered])
    | Returned true =>
        let '(took, out) := execute self (task_history self) task in
        let now := start_time + took in
        let evs := [entered; EvExecute (agent_id self) task] in
        match out with
        | Returned r =>
            let r := set_execution_time (now - start_time) r in
            let self := history_append r (set_status SUCCESS self) in
            (self, r, now, evs)
        | Raised e =>
            let '(self, r) := handle_exception self task e (now - start_time) in
            (self, r, now, evs)
        end
    end in
  (finally_clause self, r, now, evs).

(* ===================================================================== *)
(** ** orchestration_engine.py: data                                      *)
(* ===================================================================== *)

(** [class WorkflowStep]; the source fields [agent_id] and [parameters]
    are [step_agent_id] and [step_parameters] here. *)
Record WorkflowStep := mkWorkflowStep {
  step_id : string;
  step_agent_id : string;
  action : string;
  step_parameters : gmap string pyval;
  depends_on : list string;
  optional : bool;
  retry_on_failure : bool;
  max_retries : Z
}.

Record Workflow := mkWorkflow {
  workflow_id : string;
  workflow_name : string;
  description : string;
  steps : list WorkflowStep;
  parallel_execution : bool;
  timeout : Z
}.

(** A Python dict whose iteration order is observed: insertion order, an
    assignment to an existing key keeps the key's position. *)
Fixpoint dict_set {V : Type} (k : string) (v : V) (d : list (string * V))
    : list (string * V) :=
  match d with
  | [] => [(k, v)]
  | (k', v') :: d' =>
      if decide (k' = k) then (k, v) :: d' else (k', v') :: dict_set k v d'
  end.

Fixpoint dict_get {V : Type} (k : string) (d : list (string * V)) : option V :=
  match d with
  | [] => None
  | (k', v') :: d' => if decide (k' = k) then Some v' else dict_get k d'
  end.

Definition dict_values {V : Type} (d : list (string * V)) : list V := d.*2.

Record OrchestrationResult := mkOrchestrationResult {
  or_workflow_id : string;
  or_status : string;
  agent_results : list (string * AgentResult);
  or_execution_time : Z;
  overall_confidence : Q;
  errors : list string
}.

(** The orchestrator object ([agents], [workflows], [execution_history])
    together with the clock and the call log. *)
Record World := mkWorld {
  agents : gmap string BaseAgent;
  workflows : gmap string Workflow;
  execution_history : list OrchestrationResult;
  now : Z;
  trace : list event
}.

Definition register_agent (agent : BaseAgent) (w : World) : World :=
  {| agents := <[agent_id agent := agent]> (agents w);
     workflows := workflows w; execution_history := execution_history w;
     now := now w; trace := trace w |}.

Definition register_workflow (wf : Workflow) (w : World) : World :=
  {| agents := agents w;
     workflows := <[workflow_id wf := wf]> (workflows w);
     execution_history := execution_history w;
     now := now w; trace := trace w |}.

(** [await asyncio.sleep(seconds)]. *)
Definition sleep (seconds : Z) (w : World) : World :=
  {| agents := agents w; workflows := workflows w;
     execution_history := execution_history w;
     now := now w + seconds; trace := trace w ++ [EvSleep seconds] |}.

(** [await agent.process_task(task)] for the agent object registered
    under [key]: the object is updated in place. *)
Definition call_process_task (key : string) (agent : BaseAgent)
    (task : AgentTask) (w : World) : World * BaseAgent * AgentResult :=
  let '(agent', r, now', evs) := process_task agent task (now w) in
  ({| agents := <[key := agent']> (agents w); workflows := workflows w;
      execution_history := execution_history w;
      now := now'; trace := trace w ++ evs |}, agent', r).

(* ===================================================================== *)
(** ** orchestration_engine.py: AgentOrchestrator._execute_step           *)
(* ===================================================================== *)

(** The context handed to a step:
<<
    task_context = {**context}
    for dep_step_id in step.depends_on:
        for agent_id, result in previous_results.items():
            if result.task_id == dep_step_id:
                task_context[f"{agent_id}_result"] = result.result
>> *)
Definition add_dependency (dep_step_id : string)
    (task_context : gmap string pyval) (item : string * AgentResult)
    : gmap string pyval :=
  if decide (res_task_id item.2 = dep_step_id)
  then <[item.1 +:+ "_result" := PyDict (result item.2)]> task_context
  else task_context.

Definition build_context (step : WorkflowStep) (context : gmap string pyval)
    (previous_results : list (string * AgentResult)) : gmap string pyval :=
  fold_left
    (fun task_context dep_step_id =>
       fold_left (add_dependency dep_step_id) previous_results task_context)
    (depends_on step) context.

Definition build_task (step : WorkflowStep) (context : gmap string pyval)
    (previous_results : list (string * AgentResult)) : AgentTask :=
  {| task_id := step_id step; task_type := action step;
     parameters := step_parameters step;
     context := build_context step context previous_results;
     deadline := None; priority := 5 |}.

(** The retry loop
<<
    retries = 0
    while retries <= step.max_retries:
        result = await agent.process_task(task)
        if result.status == AgentStatus.SUCCESS: return result
        if not step.retry_on_failure: return result
        retries += 1
        if retries <= step.max_retries:
            await asyncio.sleep(2 ** retries)
    return result
>>
    [remaining] counts the iterations the guard still admits, that is
    [max_retries + 1 - retries] (0 once the guard is false); [last] is the
    local [result], unbound until the first iteration has run. *)
Fixpoint retry_loop (remaining : nat) (step : WorkflowStep) (key : string)
    (agent : BaseAgent) (task : AgentTask) (retries : Z)
    (last : option AgentResult) (w : World) : World * (exn + AgentResult) :=
  match remaining with
  | O =>
      match last with
      | Some r => (w, inr r)
      | None =>
          (w, inl (UnboundLocalError
                     "cannot access local variable 'result' where it is not associated with a value"))
      end
  | S remaining' =>
      let '(w, agent, r) := call_process_task key agent task w in
      if decide (res_status r = SUCCESS) then (w, inr r)
      else if negb (retry_on_failure step) then (w, inr r)
      else
        let retries := retries + 1 in
        let w := if retries <=? max_retries step
                 then sleep (2 ^ retries) w else w in
        retry_loop remaining' step key agent task retries (Some r) w
  end.

Definition _execute_step (step : WorkflowStep) (context : gmap string pyval)
    (previous_results : list (string * AgentResult)) (w : World)
    : World * (exn + AgentResult) :=
  match agents w !! step_agent_id step with
  | None =>
      (w, inl (ValueError ("Agent " +:+ step_agent_id step +:+ " not found")))
  | Some agent =>
      let task := build_task step context previous_results in
      retry_loop (Z.to_nat (max_retries step + 1)) step (step_agent_id step)
                 agent task 0 None w
  end.

(* ===================================================================== *)
(** ** AgentOrchestrator._execute_parallel                                *)
(* ===================================================================== *)

(** [ready_steps]: not completed, every dependency completed. *)
Definition is_ready (completed_steps : gset string) (step : WorkflowStep) : bool :=
  bool_decide (step_id step ∉ completed_steps)
  && forallb (fun dep => bool_decide (dep ∈ completed_steps)) (depends_on step).

Definition ready_steps (wf : Workflow) (completed_steps : gset string)
    : list WorkflowStep :=
  List.filter (is_ready completed_steps) (steps wf).

(** [asyncio.gather] with [return_exceptions=True]: every step of
    the wave sees the same [results]; exceptions are returned as values. *)
Fixpoint gather_steps (ready : list WorkflowStep) (context : gmap string pyval)
    (results : list (string * AgentResult)) (w : World)
    : World * list (exn + AgentResult) :=
  match ready with
  | [] => (w, [])
  | step :: ready' =>
      let '(w, r) := _execute_step step context results w in
      let '(w, rs) := gather_steps ready' context results w in
      (w, r :: rs)
  end.

(** [for step, result in zip(ready_steps, step_results)]. *)
Fixpoint process_results (pairs : list (WorkflowStep * (exn + AgentResult)))
    (results : list (string * AgentResult)) (completed_steps : gset string)
    : exn + (list (string * AgentResult) * gset string) :=
  match pairs with
  | [] => inr (results, completed_steps)
  | (step, inl e) :: pairs' =>
      if negb (optional step) then inl e
      else process_results pairs' results completed_steps
  | (step, inr r) :: pairs' =>
      process_results pairs' (dict_set (step_agent_id step) r results)
                      ({[step_id step]} ∪ completed_steps)
  end.

(** The [while len(completed_steps) < len(workflow.steps)] loop.  The loop
    need not terminate, so it is run for at most [fuel] iterations; [None]
    means the fuel ran out. *)
Fixpoint parallel_loop (fuel : nat) (wf : Workflow) (context : gmap string pyval)
    (results : list (string * AgentResult)) (completed_steps : gset string)
    (w : World) : option (World * (exn + list (string * AgentResult))) :=
  match fuel with
  | O => None
  | S fuel' =>
      if (size completed_steps <? length (steps wf))%nat then
        let ready := ready_steps wf completed_steps in
        match ready with
        | [] => Some (w, inr results)                         (* break *)
        | _ =>
            let '(w, step_results) := gather_steps ready context results w in
            match process_results (zip ready step_results)
                                  results completed_steps with
            | inl e => Some (w, inl e)
            | inr (results, completed_steps) =>
                parallel_loop fuel' wf context results completed_steps w
            end
        end
      else Some (w, inr results)
  end.

Definition _execute_parallel (fuel : nat) (wf : Workflow)
    (context : gmap string pyval) (w : World)
    : option (World * (exn + list (string * AgentResult))) :=
  parallel_loop fuel wf context [] ∅ w.

(* ===================================================================== *)
(** ** AgentOrchestrator._execute_sequential                              *)
(* ===================================================================== *)

(** [f"{x}"] for an [Optional[str]]. *)
Definition format_optional (o : option string) : string :=
  match o with Some s => s | None => "None" end.

Fixpoint sequential_loop (todo : list WorkflowStep) (context : gmap string pyval)
    (results : list (string * AgentResult)) (w : World)
    : World * (exn + list (string * AgentResult)) :=
  match todo with
  | [] => (w, inr results)
  | step :: todo' =>
      match _execute_step step context results w with
      | (w, inl e) => (w, inl e)
      | (w, inr r) =>
          let results := dict_set (step_agent_id step) r results in
          if bool_decide (res_status r = FAILED) && negb (optional step)
          then (w, inl (RuntimeError
                          ("Required step " +:+ step_id step +:+ " failed: "
                           +:+ format_optional (error r))))
          else sequential_loop todo' context results w
      end
  end.

Definition _execute_sequential (wf : Workflow) (context : gmap string pyval)
    (w : World) : World * (exn + list (string * AgentResult)) :=
  sequential_loop (steps wf) context [] w.

(* ===================================================================== *)
(** ** AgentOrchestrator.execute_workflow                                 *)
(* ===================================================================== *)

(** [sum(confidences)]: a left fold from 0. *)
Definition sumQ (l : list Q) : Q := fold_left Qplus l 0%Q.

Definition is_success (r : AgentResult) : bool :=
  bool_decide (res_status r = SUCCESS).

(** [[r.confidence for r in agent_results.values() if r.status == SUCCESS]]. *)
Definition success_confidences (agent_results : list (string * AgentResult))
    : list Q :=
  map confidence (List.filter is_success (dict_values agent_results)).

Definition mean_confidence (agent_results : list (string * AgentResult)) : Q :=
  let confidences := success_confidences agent_results in
  match confidences with
  | [] => 0%Q
  | _ => (sumQ confidences / inject_Z (Z.of_nat (length confidences)))%Q
  end.

(** Truth value of an [Optional[str]]: [None] and [""] are false. *)
Definition truthy (o : option string) : bool :=
  match o with
  | Some s => negb (String.eqb s "")
  | None => false
  end.

(** [[f"{r.agent_id}: {r.error}" for r in agent_results.values() if r.error]]. *)
Definition collect_errors (agent_results : list (string * AgentResult))
    : list string :=
  map (fun r => res_agent_id r +:+ ": " +:+ format_optional (error r))
      (List.filter (fun r => truthy (error r)) (dict_values agent_results)).

(** The body of the [try] and of the [except Exception] clause: status,
    agent_results, overall_confidence and errors as they stand afterwards. *)
Definition classify (ran : exn + list (string * AgentResult))
    : string * list (string * AgentResult) * Q * list string :=
  match ran with
  | inr agent_results =>
      let overall := mean_confidence agent_results in
      let errors := collect_errors agent_results in
      let status := match errors with
                    | [] => "success"
                    | _ => "partial_success"
                    end in
      (status, agent_results, overall, errors)
  | inl e => ("failed", [], 0%Q, [] ++ [str e])
  end.

Definition record_result (r : OrchestrationResult) (w : World) : World :=
  {| agents := agents w; workflows := workflows w;
     execution_history := execution_history w ++ [r];
     now := now w; trace := trace w |}.

(** The dispatch on [workflow.parallel_execution]. *)
Definition run_steps (fuel : nat) (workflow : Workflow)
    (context : gmap string pyval) (w : World)
    : option (World * (exn + list (string * AgentResult))) :=
  if parallel_execution workflow
  then _execute_parallel fuel workflow context w
  else Some (_execute_sequential workflow context w).

(** [execute_workflow]; [inl] is the [ValueError] raised for an unknown
    workflow id, [None] a parallel run that outlives [fuel] waves. *)
Definition execute_workflow (fuel : nat) (id : string)
    (context : gmap string pyval) (w : World)
    : option (World * (exn + OrchestrationResult)) :=
  let start_time := now w in
  match workflows w !! id with
  | None => Some (w, inl (ValueError ("Workflow " +:+ id +:+ " not found")))
  | Some workflow =>
      match run_steps fuel workflow context w with
      | None => None
      | Some (w, ran) =>
          let '(status, agent_results, overall, errors) := classify ran in
          let r := {| or_workflow_id := id; or_status := status;
                      agent_results := agent_results;
                      or_execution_time := now w - start_time;
                      overall_confidence := overall; errors := errors |} in
          Some (record_result r w, inr r)
      end
  end.

(* ===================================================================== *)
(** ** AgentOrchestrator.coordinate_agents                                *)
(* ===================================================================== *)

Definition coordinate_task (agent_id : string) (shared_goal : string)
    (context : gmap string pyval) (timestamp : Z) : AgentTask :=
  {| task_id := agent_id +:+ "_" +:+ pretty timestamp;
     task_type := "coordinate";
     parameters := {[ "goal" := PyStr shared_goal ]};
     context := context; deadline := None; priority := 5 |}.

(** The first loop: one pending [agent.process_task(task)] per registered
    id, unknown ids skipped.  A pending call is the registry key of the
    agent object, the object as found, and the task. *)
Fixpoint create_tasks (agent_ids : list string) (shared_goal : string)
    (context : gmap string pyval) (w : World)
    : list (string * BaseAgent * AgentTask) :=
  match agent_ids with
  | [] => []
  | agent_id :: agent_ids' =>
      match agents w !! agent_id with
      | None => create_tasks agent_ids' shared_goal context w        (* continue *)
      | Some agent =>
          (agent_id, agent, coordinate_task agent_id shared_goal context (now w))
            :: create_tasks agent_ids' shared_goal context w
      end
  end.

(** [asyncio.gather] over the pending calls; each call acts on the agent
    object in the state it has when the call runs. *)
Fixpoint gather_tasks (tasks : list (string * BaseAgent * AgentTask)) (w : World)
    : World * list (exn + AgentResult) :=
  match tasks with
  | [] => (w, [])
  | (key, agent, task) :: tasks' =>
      let agent := default agent (agents w !! key) in
      let '(w, _, r) := call_process_task key agent task w in
      let '(w, rs) := gather_tasks tasks' w in
      (w, inr r :: rs)
  end.

(** [for agent_id, result in zip(agent_ids, results)]. *)
Definition build_result_dictionary
    (pairs : list (string * (exn + AgentResult)))
    : list (string * AgentResult) :=
  fold_left
    (fun agent_results pair =>
       match pair.2 with
       | inl _ => agent_results
       | inr r => dict_set pair.1 r agent_results
       end)
    pairs [].

Definition coordinate_agents (agent_ids : list string) (shared_goal : string)
    (context : gmap string pyval) (w : World)
    : World * list (string * AgentResult) :=
  let tasks := create_tasks agent_ids shared_goal context w in
  let '(w, results) := gather_tasks tasks w in
  (w, build_result_dictionary (zip agent_ids results)).

(* ===================================================================== *)
(** ** Reading the call log                                               *)
(* ===================================================================== *)

(** Task ids for which [process_task] was entered, in order. *)
Definition dispatched (tr : list event) : list string :=
  omap (fun e => match e with EvProcess _ t => Some (task_id t) | _ => None end) tr.

(** Tasks handed to [process_task], in order. *)
Definition dispatched_tasks (tr : list event) : list AgentTask :=
  omap (fun e => match e with EvProcess _ t => Some t | _ => None end) tr.

(** Task ids for which the worker's [execute] was awaited. *)
Definition executed (tr : list event) : list string :=
  omap (fun e => match e with EvExecute _ t => Some (task_id t) | _ => None end) tr.

(** Durations passed to [asyncio.sleep], in order. *)
Definition sleeps (tr : list event) : list Z :=
  omap (fun e => match e with EvSleep s => Some s | _ => None end) tr.

Definition total (l : list Z) : Z := fold_right Z.add 0 l.

(** The backoff schedule [2^(from+1), ..., 2^(from+n)]. *)
Fixpoint backoff (from : Z) (n : nat) : list Z :=
  match n with
  | O => []
  | S n' => 2 ^ (from + 1) :: backoff (from + 1) n'
  end.

(* ===================================================================== *)
(** ** Workers and workflows used as concrete inputs                      *)
(* ===================================================================== *)

Definition new_agent (id : string)
    (v : list AgentResult -> AgentTask -> outcome bool)
    (e : list AgentResult -> AgentTask -> Z * outcome AgentResult) : BaseAgent :=
  {| agent_id := id; agent_name := id; capabilities := []; status := IDLE;
     task_history := []; validate_input := v; execute := e |}.

Definition ok_result (id : string) (task : AgentTask) (c : Q) : AgentResult :=
  {| res_agent_id := id; res_task_id := task_id task; res_status := SUCCESS;
     result := {[ "out" := PyStr id ]}; error := None; execution_time := 0;
     confidence := c; metadata := ∅ |}.

Definition accept : list AgentResult -> AgentTask -> outcome bool :=
  fun _ _ => Returned true.

(** Succeeds at once with confidence [c]; each call takes [took] seconds. *)
Definition reliable (id : string) (c : Q) (took : Z) : BaseAgent :=
  new_agent id accept (fun _ t => (took, Returned (ok_result id t c))).

(** [execute] always raises. *)
Definition broken (id msg : string) : BaseAgent :=
  new_agent id accept (fun _ _ => (1, Raised (OtherException msg))).

(** [validate_input] always returns [False]. *)
Definition rejecting (id : string) : BaseAgent :=
  new_agent id (fun _ _ => Returned false)
            (fun _ t => (1, Returned (ok_result id t 1%Q))).

(** Raises on its first [k] calls, succeeds afterwards. *)
Definition flaky (id : string) (k : nat) : BaseAgent :=
  new_agent id accept
    (fun h t => if (length h <? k)%nat
                then (1, Raised (OtherException "boom"))
                else (1, Returned (ok_result id t 1%Q))).

(** Confidence 1 for the task named [favourite], 1/2 for any other. *)
Definition choosy (id favourite : string) : BaseAgent :=
  new_agent id accept
    (fun _ t => (1, Returned (ok_result id t
                     (if decide (task_id t = favourite) then 1%Q else (1 # 2)%Q)))).

Definition new_step (id agent : string) (deps : list string) (n : Z) : WorkflowStep :=
  {| step_id := id; step_agent_id := agent; action := "run";
     step_parameters := ∅; depends_on := deps; optional := false;
     retry_on_failure := true; max_retries := n |}.

Definition new_workflow (id : string) (parallel : bool) (l : list WorkflowStep)
    : Workflow :=
  {| workflow_id := id; workflow_name := id; description := "";
     steps := l; parallel_execution := parallel; timeout := 300 |}.

Definition empty_world : World :=
  {| agents := ∅; workflows := ∅; execution_history := []; now := 0; trace := [] |}.

Definition world_of (ags : list BaseAgent) (wfs : list Workflow) : World :=
  fold_right register_workflow (fold_right register_agent empty_world ags) wfs.

(** A required step whose worker always fails, and a step depending on it. *)
Definition chain (parallel : bool) : Workflow :=
  new_workflow "chain" parallel
    [new_step "A" "a" [] 0; new_step "B" "b" ["A"] 0].

Definition chain_world (parallel : bool) : World :=
  world_of [broken "a" "boom"; reliable "b" 1%Q 1] [chain parallel].

(** A single step that depends on itself. *)
Definition knot : Workflow :=
  new_workflow "knot" true [new_step "S" "a" ["S"] 0].

Definition knot_world : World := world_of [reliable "a" 1%Q 1] [knot].

(** A single required step whose worker always fails. *)
Definition solo : Workflow := new_workflow "solo" true [new_step "A" "a" [] 0].

Definition solo_world : World := world_of [broken "a" "boom"] [solo].

(** Two steps served by the same worker, then a step depending on the first. *)
Definition shared_worker : Workflow :=
  new_workflow "shared" false
    [new_step "A" "x" [] 0; new_step "C" "x" [] 0; new_step "B" "y" ["A"] 0].

Definition shared_world : World :=
  world_of [reliable "x" 1%Q 1; reliable "y" 1%Q 1] [shared_worker].

(** The same steps registered twice: "par" runs them in parallel mode,
    "seq" sequentially. *)
Definition both_modes (l : list WorkflowStep) : list Workflow :=
  [new_workflow "par" true l; new_workflow "seq" false l].

(** [A] on worker [y]; [B] (after [A]) and [C] on worker [x]. *)
Definition crossing_steps : list WorkflowStep :=
  [new_step "A" "y" [] 0; new_step "B" "x" ["A"] 0; new_step "C" "x" [] 0].

Definition crossing_world : World :=
  world_of [reliable "y" 1%Q 1; choosy "x" "B"] (both_modes crossing_steps).

(** Three independent workers, dependencies running in list order. *)
Definition pipeline_steps : list WorkflowStep :=
  [new_step "A" "a" [] 0; new_step "B" "b" ["A"] 0; new_step "C" "c" [] 0].

Definition pipeline_world : World :=
  world_of [reliable "a" 1%Q 1; reliable "b" (1 # 2)%Q 1; reliable "c" (1 # 4)%Q 1]
           (both_modes pipeline_steps).

Definition timed_task (limit : Z) : AgentTask :=
  {| task_id := "T"; task_type := "run"; parameters := ∅; context := ∅;
     deadline := Some limit; priority := 5 |}.

(** A step with two retries on a worker that fails twice. *)
Definition flaky_step : WorkflowStep := new_step "A" "a" [] 2.
Definition flaky_world : World := world_of [flaky "a" 2] [].

(** A step with one retry on a worker that rejects every input. *)
Definition rejecting_step : WorkflowStep := new_step "A" "a" [] 1.
Definition rejecting_world : World := world_of [rejecting "a"] [].

(** Step A runs in the first wave; step S waits for a step that does not
    exist. *)
Definition stalled : Workflow :=
  new_workflow "stalled" true
    [new_step "A" "a" [] 0; new_step "S" "b" ["missing"] 0].

Definition stalled_world : World :=
  world_of [reliable "a" 1%Q 1; reliable "b" 1%Q 1] [stalled].

(** The world and the results after the only wave of [stalled]. *)
Definition stalled_after_A : World * list (exn + AgentResult) :=
  gather_steps (ready_steps stalled ∅) ∅ [] stalled_world.

Definition stalled_results : list (string * AgentResult) :=
  [("a", set_execution_time 1
           (ok_result "a" (build_task (new_step "A" "a" [] 0) ∅ []) 1%Q))].

(** What worker "a" returns for step A of [pipeline_steps]. *)
Definition pipeline_A_result : AgentResult :=
  set_execution_time 1 (ok_result "a" (build_task (new_step "A" "a" [] 0) ∅ []) 1%Q).

(* ===================================================================== *)
(** ** Vocabulary of the statements                                       *)
(* ===================================================================== *)

(** The result of an attempt, read off the worker's two coroutines. *)
Definition attempt_fails (out : outcome AgentResult) : Prop :=
  match out with
  | Raised _ => True
  | Returned r => res_status r <> SUCCESS
  end.

(** A worker that accepts [task], fails on its next two calls and
    succeeds on the one after. *)
Definition fails_twice_then_succeeds (agent : BaseAgent) (task : AgentTask) : Prop :=
  let n := length (task_history agent) in
  (forall h, validate_input agent h task = Returned true)
  /\ (forall h, (length h < n + 2)%nat -> attempt_fails (execute agent h task).2)
  /\ (forall h, length h = (n + 2)%nat ->
        exists r, (execute agent h task).2 = Returned r /\ res_status r = SUCCESS).

(** The result of an attempt whose input the worker [id] rejects. *)
Definition rejected_result (id : string) (task : AgentTask) : AgentResult :=
  {| res_agent_id := id; res_task_id := task_id task; res_status := FAILED;
     result := ∅; error := Some ("Invalid task input for " +:+ id);
     execution_time := 0; confidence := 0%Q; metadata := ∅ |}.

(** [waves wf ctx n r c w r' c' w']: from results [r], completed set [c]
    and world [w], the loop runs [n] full waves, none of which raises, and
    arrives at [r'], [c'], [w']. *)
Inductive waves (wf : Workflow) (ctx : gmap string pyval)
  : nat -> list (string * AgentResult) -> gset string -> World ->
    list (string * AgentResult) -> gset string -> World -> Prop :=
  | waves_O r c w : waves wf ctx 0 r c w r c w
  | waves_S n r c w w1 outs r1 c1 r2 c2 w2 :
      (size c < length (steps wf))%nat ->
      ready_steps wf c <> [] ->
      gather_steps (ready_steps wf c) ctx r w = (w1, outs) ->
      process_results (zip (ready_steps wf c) outs) r c = inr (r1, c1) ->
      waves wf ctx n r1 c1 w1 r2 c2 w2 ->
      waves wf ctx (S n) r c w r2 c2 w2.

(** One call of [process_task]: the agent afterwards and the result (they
    do not depend on the instant at which the call is made). *)
Definition attempt (agent : BaseAgent) (task : AgentTask)
    : BaseAgent * AgentResult :=
  (process_task agent task 0).1.1.

(** Every step, reached in list order, returns SUCCESS after a single
    dispatch, with a result that carries the step's id. *)
Fixpoint first_attempt_success (todo : list WorkflowStep)
    (ctx : gmap string pyval) (results : list (string * AgentResult))
    (w : World) : Prop :=
  match todo with
  | [] => True
  | step :: todo' =>
      exists w1 r,
        _execute_step step ctx results w = (w1, inr r)
        /\ res_status r = SUCCESS
        /\ res_task_id r = step_id step
        /\ dispatched (trace w1) = dispatched (trace w) ++ [step_id step]
        /\ first_attempt_success todo' ctx
             (dict_set (step_agent_id step) r results) w1
  end.

(** The step list order respects the dependencies: whatever a step
    depends on is the id of a step earlier in the list. *)
Definition deps_respected (l : list WorkflowStep) : Prop :=
  forall l1 s l2, l = l1 ++ s :: l2 ->
    forall d, d ∈ depends_on s -> d ∈ step_id <$> l1.

(** What the table of final results says about one step. *)
Definition table_entry (ctx : gmap string pyval) (w0 : World)
    (table : list (string * AgentResult)) (s : WorkflowStep) (r : AgentResult)
    : Prop :=
  exists agent,
    agents w0 !! step_agent_id s = Some agent
    /\ 0 <= max_retries s
    /\ (attempt agent (build_task s ctx table)).2 = r
    /\ res_status r = SUCCESS
    /\ res_task_id r = step_id s.

(** The context entry written for the result [r] stored under [a]. *)
Definition holds (a : string) (r : AgentResult) (m : gmap string pyval) : Prop :=
  m !! (a +:+ "_result") = Some (PyDict (result r)).

(** What holds of the results, the completed set and the world between two
    waves of a parallel run whose final results are [table]. *)
Definition between_waves (wf : Workflow) (w0 : World)
    (table : list (string * AgentResult)) (R : list (string * AgentResult))
    (C : gset string) (w : World) : Prop :=
  NoDup R.*1
  /\ (forall x, x ∈ R -> x ∈ table)
  /\ (forall s, s ∈ steps wf -> step_id s ∈ C <-> step_agent_id s ∈ R.*1)
  /\ (forall s, s ∈ steps wf -> step_id s ∉ C ->
        agents w !! step_agent_id s = agents w0 !! step_agent_id s)
  /\ C ⊆ list_to_set (step_id <$> steps wf).

(* ===================================================================== *)
(** ** base_agent.py: status report, reset                                *)
(* ===================================================================== *)

(** [AgentStatus.value]. *)
Definition status_value (s : AgentStatus) : string :=
  match s with
  | IDLE => "idle"
  | RUNNING => "running"
  | SUCCESS => "success"
  | FAILED => "failed"
  | TIMEOUT => "timeout"
  end.

(** [sum(1 for result in self.task_history if result.status == SUCCESS)]. *)
Definition count_successes (history : list AgentResult) : nat :=
  length (List.filter is_success history).

(** [BaseAgent._calculate_success_rate]. *)
Definition _calculate_success_rate (self : BaseAgent) : Q :=
  match task_history self with
  | [] => 0%Q
  | history =>
      (inject_Z (Z.of_nat (count_successes history))
       / inject_Z (Z.of_nat (length history)))%Q
  end.

(** [BaseAgent._calculate_avg_execution_time]. *)
Definition _calculate_avg_execution_time (self : BaseAgent) : Q :=
  match task_history self with
  | [] => 0%Q
  | history =>
      (inject_Z (fold_left Z.add (map execution_time history) 0%Z)
       / inject_Z (Z.of_nat (length history)))%Q
  end.

(** The dictionary returned by [BaseAgent.get_status]. *)
Record StatusReport := mkStatusReport {
  report_agent_id : string;
  report_agent_name : string;
  report_status : string;
  report_capabilities : list string;
  tasks_completed : nat;
  success_rate : Q;
  average_execution_time : Q
}.

Definition get_status (self : BaseAgent) : StatusReport :=
  {| report_agent_id := agent_id self;
     report_agent_name := agent_name self;
     report_status := status_value (status self);
     report_capabilities := capabilities self;
     tasks_completed := length (task_history self);
     success_rate := _calculate_success_rate self;
     average_execution_time := _calculate_avg_execution_time self |}.

(** [BaseAgent.reset]. *)
Definition reset (self : BaseAgent) : BaseAgent :=
  {| agent_id := agent_id self; agent_name := agent_name self;
     capabilities := capabilities self; status := IDLE;
     task_history := [];
     validate_input := validate_input self; execute := execute self |}.

(** [AgentOrchestrator.get_agent_status] and [get_all_agent_status]. *)
Definition get_agent_status (id : string) (w : World) : option StatusReport :=
  get_status <$> agents w !! id.

Definition get_all_agent_status (w : World) : gmap string StatusReport :=
  get_status <$> agents w.

(* ===================================================================== *)
(** ** orchestration_engine.py: get_execution_history                     *)
(* ===================================================================== *)

(** The slice [l[start:]]: a negative [start] counts from the end, and the
    bound is clamped to the list. *)
Definition slice_from {A : Type} (start : Z) (l : list A) : list A :=
  let n := Z.of_nat (length l) in
  let start := if start <? 0 then Z.max (start + n) 0 else Z.min start n in
  drop (Z.to_nat start) l.

(** [return self.execution_history[-limit:]]. *)
Definition get_execution_history (limit : Z) (w : World)
    : list OrchestrationResult :=
  slice_from (- limit) (execution_history w).

(* ===================================================================== *)
(** ** base_agent.py: AgentMemory                                         *)
(* ===================================================================== *)

Record AgentMemory := mkAgentMemory {
  max_size : Z;
  short_term : list (gmap string pyval);
  long_term : gmap string pyval
}.

(** [AgentMemory(max_size)]. *)
Definition new_memory (size : Z) : AgentMemory :=
  {| max_size := size; short_term := []; long_term := ∅ |}.

(** [append], then [pop(0)] when the list has outgrown [max_size]. *)
Definition store_short_term (data : gmap string pyval) (m : AgentMemory)
    : AgentMemory :=
  let appended := short_term m ++ [data] in
  {| max_size := max_size m;
     short_term := if Z.of_nat (length appended) >? max_size m
                   then tail appended else appended;
     long_term := long_term m |}.

Definition store_long_term (key : string) (data : pyval) (m : AgentMemory)
    : AgentMemory :=
  {| max_size := max_size m; short_term := short_term m;
     long_term := <[key := data]> (long_term m) |}.

Definition retrieve (key : string) (m : AgentMemory) : option pyval :=
  long_term m !! key.

Definition search_short_term (filter_fn : gmap string pyval -> bool)
    (m : AgentMemory) : list (gmap string pyval) :=
  List.filter filter_fn (short_term m).

(* ===================================================================== *)
(** ** Messaging: send_message, receive_message, broadcast_message        *)
(* ===================================================================== *)

(** [class AgentMessage] (without its [timestamp]). *)
Record AgentMessage := mkAgentMessage {
  message_id : string;
  sender_id : string;
  receiver_id : string;
  message_type : string;
  payload : gmap string pyval;
  message_priority : Z
}.

(** The [message_queue] of every agent object, by the key the object is
    registered under.  An [asyncio.Queue()] is unbounded and first-in
    first-out; an agent without an entry has an empty queue. *)
Definition queue_of (key : string) (queues : gmap string (list AgentMessage))
    : list AgentMessage :=
  default [] (queues !! key).

(** [BaseAgent.send_message]: [await self.message_queue.put(message)], on
    the queue of the agent the method is called on. *)
Definition send_message (key : string) (message : AgentMessage)
    (queues : gmap string (list AgentMessage))
    : gmap string (list AgentMessage) :=
  <[key := queue_of key queues ++ [message]]> queues.

(** What [receive_message] does: return a message, return [None] after
    the timeout, or wait for ever on an empty queue. *)
Inductive received :=
  | Delivered (message : AgentMessage)
  | NothingReceived
  | WaitsForever.

(** [BaseAgent.receive_message(timeout)], for a timeout in whole seconds
    that is [None] or not negative; [if timeout:] treats 0 like [None]. *)
Definition receive_message (key : string) (timeout : option N)
    (queues : gmap string (list AgentMessage))
    : received * gmap string (list AgentMessage) :=
  match queue_of key queues with
  | message :: rest => (Delivered message, <[key := rest]> queues)
  | [] =>
      match timeout with
      | Some (Npos _) => (NothingReceived, queues)
      | _ => (WaitsForever, queues)
      end
  end.

(** [targets = target_agents or list(self.agents.keys())]: an empty list
    counts as no list. *)
Definition broadcast_targets (target_agents : option (list string)) (w : World)
    : list string :=
  match target_agents with
  | Some (t :: ts) => t :: ts
  | _ => (map_to_list (agents w)).*1
  end.

Definition broadcast_message_to (sender : string) (type : string)
    (content : gmap string pyval) (w : World) (target_id : string)
    : AgentMessage :=
  {| message_id := sender +:+ "_" +:+ target_id +:+ "_" +:+ pretty (now w);
     sender_id := sender; receiver_id := target_id;
     message_type := type; payload := content; message_priority := 5 |}.

(** The body of the loop over the targets. *)
Definition broadcast_step (sender : string) (type : string)
    (content : gmap string pyval) (w : World)
    (queues : gmap string (list AgentMessage)) (target_id : string)
    : gmap string (list AgentMessage) :=
  if decide (target_id = sender) then queues
  else match agents w !! target_id with
       | None => queues
       | Some _ =>
           send_message target_id
             (broadcast_message_to sender type content w target_id) queues
       end.

(** [AgentOrchestrator.broadcast_message]. *)
Definition broadcast_message (sender : string) (type : string)
    (content : gmap string pyval) (target_agents : option (list string))
    (w : World) (queues : gmap string (list AgentMessage))
    : gmap string (list AgentMessage) :=
  fold_left (broadcast_step sender type content w)
            (broadcast_targets target_agents w) queues.

(* ===================================================================== *)
(** ** Vocabulary for what a run preserves                                *)
(* ===================================================================== *)

(** Every registered agent satisfies [I]. *)
Definition all_agents (I : BaseAgent -> Prop) (w : World) : Prop :=
  map_Forall (fun _ agent => I agent) (agents w).

(** From [w] to [w'] the registered workflows, the recorded runs and the
    set of registered agent ids are unchanged, and every agent satisfies
    [I] afterwards. *)
Definition run_keeps (I : BaseAgent -> Prop) (w w' : World) : Prop :=
  workflows w' = workflows w
  /\ execution_history w' = execution_history w
  /\ dom (agents w') = dom (agents w)
  /\ all_agents I w'.

(** The confidence of a result lies in [[0, 1]]. *)
Definition confidence_in_range (r : AgentResult) : Prop :=
  (0 <= confidence r /\ confidence r <= 1)%Q.

(** Whatever the worker's [execute] returns has its confidence in range
    (as the [AgentResult] constructor checks). *)
Definition returns_valid_confidence (agent : BaseAgent) : Prop :=
  forall history task took r,
    execute agent history task = (took, Returned r) -> confidence_in_range r.

(* ===================================================================== *)
(** ** orchestration_engine.py: the predefined workflow                   *)
(* ===================================================================== *)

(** [WorkflowStep(step_id=..., agent_id=..., action=..., depends_on=...)]
    with the defaults of the class for the other fields. *)
Definition default_step (id agent act : string) (deps : list string)
    : WorkflowStep :=
  {| step_id := id; step_agent_id := agent; action := act;
     step_parameters := ∅; depends_on := deps; optional := false;
     retry_on_failure := true; max_retries := 3 |}.

Definition create_complete_analysis_workflow : Workflow :=
  {| workflow_id := "complete_analysis";
     workflow_name := "Complete Inventory Analysis";
     description := "Full analysis including forecasting, risk, and sustainability";
     steps :=
       [ default_step "collect_sales" "sales_agent" "ingest" [];
         default_step "collect_social" "social_agent" "collect" [];
         default_step "filter_signals" "signal_agent" "filter" ["collect_social"];
         default_step "generate_forecast" "forecast_agent" "forecast"
                      ["collect_sales"; "filter_signals"];
         default_step "check_supply" "supply_agent" "check" ["generate_forecast"];
         default_step "analyze_risk" "risk_agent" "analyze"
                      ["generate_forecast"; "check_supply"];
         default_step "calculate_sustainability" "sustainability_agent" "calculate"
                      ["check_supply"];
         default_step "explain_decision" "xai_agent" "explain"
                      ["generate_forecast"; "analyze_risk"] ];
     parallel_execution := true;
     timeout := 300 |}.

(** The predefined workflow with a dependable worker for each step. *)
Definition analysis_world : World :=
  world_of
    (map (fun s => reliable (step_agent_id s) (1 # 2)%Q 1)
         (steps create_complete_analysis_workflow))
    [create_complete_analysis_workflow].

(** One optional step whose worker was never registered. *)
Definition orphan : Workflow :=
  new_workflow "orphan" true
    [ {| step_id := "S"; step_agent_id := "nobody"; action := "run";
         step_parameters := ∅; depends_on := []; optional := true;
         retry_on_failure := true; max_retries := 3 |} ].

Definition orphan_world : World := world_of [] [orphan].

(* ===================================================================== *)
(** ** Vocabulary for termination                                         *)
(* ===================================================================== *)

(** The step can be attempted: its worker is registered and the retry
    loop is entered. *)
Definition runnable (w : World) (s : WorkflowStep) : Prop :=
  step_agent_id s ∈ dom (agents w) /\ 0 <= max_retries s.

(** The step raises before any attempt: its worker is not registered, or
    a negative [max_retries] leaves [result] unbound. *)
Definition raises_unattempted (w : World) (s : WorkflowStep) : Prop :=
  agents w !! step_agent_id s = None \/ max_retries s < 0.

(** The steps not yet in the completed set. *)
Definition pending (wf : Workflow) (C : gset string) : list WorkflowStep :=
  List.filter (fun s => bool_decide (step_id s ∉ C)) (steps wf).

(** [n] calls of [receive_message] in a row, with what each returned. *)
Fixpoint receive_many (key : string) (timeout : option N) (n : nat)
    (queues : gmap string (list AgentMessage))
    : list received * gmap string (list AgentMessage) :=
  match n with
  | O => ([], queues)
  | S n' =>
      let '(got, queues) := receive_message key timeout queues in
      let '(rest, queues) := receive_many key timeout n' queues in
      (got :: rest, queues)
  end.

(** How often [key] occurs in [l]. *)
Definition occurrences (key : string) (l : list string) : nat :=
  length (List.filter (fun t => bool_decide (t = key)) l).

(* ===================================================================== *)
(** ** orchestrator_config.py                                             *)
(* ===================================================================== *)

Inductive AgentRole :=
  | SOCIAL_ANALYST | SALES_ANALYST | SIGNAL_PROCESSOR | FORECASTER
  | SUPPLY_MANAGER | RISK_ANALYST | SUSTAINABILITY_EXPERT | XAI_EXPLAINER
  | ORCHESTRATOR.

Inductive AgentCapability :=
  | DATA_COLLECTION | DATA_ANALYSIS | ML_PREDICTION | DECISION_MAKING
  | EXPLANATION | OPTIMIZATION.

(** [class AgentConfig]; fields shared with other classes carry the
    prefix [config_]. *)
Record AgentConfig := mkAgentConfig {
  config_agent_id : string;
  config_agent_name : string;
  role : AgentRole;
  config_capabilities : list AgentCapability;
  port : Z;
  endpoint : string;
  config_max_retries : Z;
  config_timeout : Z;
  enabled : bool;
  config_priority : Z;
  dependencies : list string
}.

(** [AgentConfig(...)] with the class defaults for [max_retries],
    [timeout] and [enabled]. *)
Definition agent_config (id name : string) (r : AgentRole)
    (caps : list AgentCapability) (p : Z) (path : string) (prio : Z)
    (deps : list string) : AgentConfig :=
  {| config_agent_id := id; config_agent_name := name; role := r;
     config_capabilities := caps; port := p; endpoint := path;
     config_max_retries := 3; config_timeout := 30; enabled := true;
     config_priority := prio; dependencies := deps |}.

Definition DEFAULT_AGENTS : list (string * AgentConfig) :=
  [ ("social_agent",
     agent_config "social_agent" "Social Trend Analyst" SOCIAL_ANALYST
       [DATA_COLLECTION; DATA_ANALYSIS] 8001 "/api/v1/collect" 7 []);
    ("sales_agent",
     agent_config "sales_agent" "Sales Data Analyst" SALES_ANALYST
       [DATA_COLLECTION; DATA_ANALYSIS] 8002 "/api/v1/ingest" 9 []);
    ("signal_agent",
     agent_config "signal_agent" "Signal Processor" SIGNAL_PROCESSOR
       [DATA_ANALYSIS; OPTIMIZATION] 8003 "/api/v1/filter" 6 ["social_agent"]);
    ("forecast_agent",
     agent_config "forecast_agent" "ML Forecaster" FORECASTER
       [ML_PREDICTION; DATA_ANALYSIS] 8004 "/api/v1/forecast" 10
       ["sales_agent"; "signal_agent"]);
    ("supply_agent",
     agent_config "supply_agent" "Supply Chain Manager" SUPPLY_MANAGER
       [DATA_ANALYSIS; OPTIMIZATION] 8005 "/api/v1/check" 8 ["forecast_agent"]);
    ("risk_agent",
     agent_config "risk_agent" "Risk Analyst" RISK_ANALYST
       [DATA_ANALYSIS; DECISION_MAKING] 8006 "/api/v1/analyze" 8
       ["forecast_agent"; "supply_agent"]);
    ("sustainability_agent",
     agent_config "sustainability_agent" "Sustainability Expert"
       SUSTAINABILITY_EXPERT
       [DATA_ANALYSIS; OPTIMIZATION] 8007 "/api/v1/calculate" 6 ["supply_agent"]);
    ("xai_agent",
     agent_config "xai_agent" "XAI Explainer" XAI_EXPLAINER
       [EXPLANATION; ML_PREDICTION] 8008 "/api/v1/explain" 7
       ["forecast_agent"; "risk_agent"]) ].

(** [DEFAULT_AGENTS.get(agent_id)]. *)
Definition get_agent_config (id : string) : option AgentConfig :=
  dict_get id DEFAULT_AGENTS.

Definition get_execution_order : list string :=
  [ "sales_agent"; "social_agent"; "signal_agent"; "forecast_agent";
    "supply_agent"; "risk_agent"; "sustainability_agent"; "xai_agent" ].

(** The configured dependencies of an agent id (none for an unknown id). *)
Definition configured_dependencies (id : string) : list string :=
  match get_agent_config id with
  | Some c => dependencies c
  | None => []
  end.

(** In a list of items with their dependencies, every dependency of an
    item is the name of an earlier item. *)
Definition dependencies_first (items : list (string * list string)) : Prop :=
  forall l1 item l2, items = l1 ++ item :: l2 ->
    forall d, d ∈ item.2 -> d ∈ l1.*1.

(** The same, as a check that runs down the list. *)
Fixpoint check_dependencies_first (seen : list string)
    (items : list (string * list string)) : bool :=
  match items with
  | [] => true
  | item :: items' =>
      forallb (fun d => bool_decide (d ∈ seen)) item.2
      && check_dependencies_first (seen ++ [item.1]) items'
  end.

(** The agent serving the step called [id] in a workflow. *)
Definition agent_of_step (wf : Workflow) (id : string) : option string :=
  step_agent_id <$> List.find (fun s => bool_decide (step_id s = id)) (steps wf).

(** A list of dispatched task ids in which every id is that of a step of
    the workflow all of whose dependencies were dispatched before it. *)
Definition dependencies_dispatched_first (wf : Workflow) (D : list string) : Prop :=
  forall i id, D !! i = Some id ->
    exists s, s ∈ steps wf /\ step_id s = id
              /\ forall d, d ∈ depends_on s -> d ∈ take i D.

(* ===================================================================== *)
(** * Properties of BaseAgent.process_task                                *)
(* ===================================================================== *)

(** Case analysis on what the worker's two coroutines do. *)
Ltac worker_cases :=
  unfold process_task; cbn [validate_input execute set_status task_history agent_id];
  repeat match goal with
  | H : validate_input ?a ?h ?t = _ |- context [validate_input ?a ?h ?t] => rewrite H
  | H : execute ?a ?h ?t = _ |- context [execute ?a ?h ?t] => rewrite H
  | |- context [validate_input ?a ?h ?t] =>
      destruct (validate_input a h t) as [[|]|[]] eqn:?
  | |- context [execute ?a ?h ?t] =>
      destruct (execute a h t) as [? [?|[]]] eqn:?
  end;
  cbn -[Z.add Z.sub].

Lemma process_task_keeps_methods self task start :
  let self' := (process_task self task start).1.1.1 in
  validate_input self' = validate_input self
  /\ execute self' = execute self
  /\ agent_id self' = agent_id self.
Proof. worker_cases; auto. Qed.

Lemma process_task_records self task start :
  let '(self', r, _, _) := process_task self task start in
  task_history self' = task_history self ++ [r].
Proof. worker_cases; reflexivity. Qed.

Lemma process_task_enters self task start :
  let '(_, _, _, evs) := process_task self task start in
  dispatched_tasks evs = [task] /\ sleeps evs = [].
Proof. worker_cases; auto. Qed.

(** C4, as the code has it.  [process_task] applies no deadline of its own.
    Once the input is accepted, whatever [execute] returns after [took]
    seconds is handed back with only [execution_time] stamped, however
    [took] compares with [task.deadline]; the TIMEOUT result (confidence 0,
    error "Task execution timeout") is produced when [execute] itself
    raises [asyncio.TimeoutError], and any other exception gives FAILED. *)
Theorem C4_timeout_only_when_raised self task start took out :
  validate_input self (task_history self) task = Returned true ->
  execute self (task_history self) task = (took, out) ->
  let '(self', r, finished, evs) := process_task self task start in
  finished = start + took
  /\ executed evs = [task_id task]
  /\ match out with
     | Returned r0 => r = set_execution_time took r0 /\ status self' = SUCCESS
     | Raised TimeoutError =>
         res_status r = TIMEOUT /\ confidence r = 0%Q
         /\ error r = Some "Task execution timeout" /\ status self' = TIMEOUT
     | Raised e =>
         res_status r = FAILED /\ confidence r = 0%Q
         /\ error r = Some (str e) /\ status self' = FAILED
     end.
Proof.
  intros Hv He. worker_cases.
  destruct out as [r0|[]]; cbn -[Z.add Z.sub];
    rewrite ?Z.add_simpl_l; auto 6.
Qed.

Lemma C4_timeout_only_when_raised_witness :
  let '(self', r, finished, evs) :=
    process_task (reliable "a" 1%Q 10) (timed_task 5) 0 in
  finished = 0 + 10
  /\ executed evs = ["T"]
  /\ r = set_execution_time 10 (ok_result "a" (timed_task 5) 1%Q)
     /\ status self' = SUCCESS.
Proof.
  exact (C4_timeout_only_when_raised (reliable "a" 1%Q 10) (timed_task 5) 0 10
           (Returned (ok_result "a" (timed_task 5) 1%Q)) eq_refl eq_refl).
Defined.

(** C4 as stated fails: a task with deadline 5 whose execution returns at
    instant 10 is not abandoned; the worker's SUCCESS result comes back. *)
Lemma C4_counterexample :
  let task := timed_task 5 in
  let '(_, r, finished, _) := process_task (reliable "a" 1%Q 10) task 0 in
  deadline task = Some 5 /\ finished = 10 /\ 5 < finished
  /\ res_status r = SUCCESS /\ res_status r <> TIMEOUT
  /\ error r <> Some "execution timeout".
Proof. vm_compute. repeat split; discriminate. Qed.

(** C6, as the code has it.  After [process_task] returns, the worker's
    status is never RUNNING and never IDLE: it is SUCCESS when [execute]
    returned, and otherwise the FAILED or TIMEOUT status of the result. *)
Theorem C6_status_after_process_task self task start :
  let '(self', r, _, _) := process_task self task start in
  status self' <> RUNNING
  /\ status self' <> IDLE
  /\ (status self' = SUCCESS
      \/ status self' = res_status r
         /\ (res_status r = FAILED \/ res_status r = TIMEOUT))
  /\ status self' =
       match validate_input self (task_history self) task with
       | Returned true =>
           match (execute self (task_history self) task).2 with
           | Returned _ => SUCCESS
           | Raised TimeoutError => TIMEOUT
           | Raised _ => FAILED
           end
       | Returned false => FAILED
       | Raised TimeoutError => TIMEOUT
       | Raised _ => FAILED
       end.
Proof. worker_cases; repeat split; auto; discriminate. Qed.

(** C6 as stated fails: after a successful call the worker's status is
    SUCCESS, not IDLE. *)
Lemma C6_counterexample :
  let '(self', _, _, _) := process_task (reliable "a" 1%Q 1) (timed_task 5) 0 in
  status (reliable "a" 1%Q 1) = IDLE /\ status self' = SUCCESS /\ status self' <> IDLE.
Proof. vm_compute. repeat split; discriminate. Qed.

(** What one awaited call leaves behind in the world. *)
Lemma call_process_task_spec key agent task w :
  exists w' agent' r,
    call_process_task key agent task w = (w', agent', r)
    /\ agents w' = <[key := agent']> (agents w)
    /\ workflows w' = workflows w
    /\ task_history agent' = task_history agent ++ [r]
    /\ validate_input agent' = validate_input agent
    /\ execute agent' = execute agent
    /\ agent_id agent' = agent_id agent
    /\ sleeps (trace w') = sleeps (trace w)
    /\ dispatched_tasks (trace w') = dispatched_tasks (trace w) ++ [task].
Proof.
  unfold call_process_task.
  pose proof (process_task_keeps_methods agent task (now w)) as Hm.
  pose proof (process_task_records agent task (now w)) as Hr.
  pose proof (process_task_enters agent task (now w)) as He.
  destruct (process_task agent task (now w)) as [[[agent' r] fin] evs].
  cbn in Hm. destruct Hm as (Hv & Hx & Hi). destruct He as [Hd Hs].
  eexists _, agent', r. split; [reflexivity|]. cbn [agents workflows trace].
  unfold sleeps, dispatched_tasks in *. rewrite !omap_app, Hd, Hs, app_nil_r.
  auto 10.
Qed.

Lemma process_task_accepted_status self task start :
  validate_input self (task_history self) task = Returned true ->
  let r := (process_task self task start).1.1.2 in
  match (execute self (task_history self) task).2 with
  | Returned r0 => res_status r = res_status r0
  | Raised _ => res_status r <> SUCCESS
  end.
Proof. intros Hv. worker_cases; try reflexivity; discriminate. Qed.

Lemma call_process_task_result key agent task w :
  (call_process_task key agent task w).2 = (process_task agent task (now w)).1.1.2.
Proof.
  unfold call_process_task.
  destruct (process_task agent task (now w)) as [[[agent' r] fin] evs]. reflexivity.
Qed.

(* ===================================================================== *)
(** * The retry loop of _execute_step                                     *)
(* ===================================================================== *)

Lemma retry_loop_S n step key agent task retries last w :
  retry_loop (S n) step key agent task retries last w =
  let '(w, agent, r) := call_process_task key agent task w in
  if decide (res_status r = SUCCESS) then (w, inr r)
  else if negb (retry_on_failure step) then (w, inr r)
  else retry_loop n step key agent task (retries + 1) (Some r)
         (if retries + 1 <=? max_retries step
          then sleep (2 ^ (retries + 1)) w else w).
Proof. reflexivity. Qed.

Lemma retry_loop_spec step key task n :
  forall agent retries last w,
    Z.of_nat (S n) = max_retries step + 1 - retries ->
    exists w' fails r agent',
      retry_loop (S n) step key agent task retries last w = (w', inr r)
      /\ agents w' = <[key := agent']> (agents w)
      /\ workflows w' = workflows w
      /\ task_history agent' = task_history agent ++ fails ++ [r]
      /\ Forall (fun x => res_status x <> SUCCESS) fails
      /\ (length fails <= n)%nat
      /\ (retry_on_failure step = true ->
          res_status r = SUCCESS \/ length fails = n)
      /\ (retry_on_failure step = false -> fails = [])
      /\ sleeps (trace w') = sleeps (trace w) ++ backoff retries (length fails)
      /\ dispatched_tasks (trace w')
         = dispatched_tasks (trace w) ++ replicate (S (length fails)) task.
Proof.
  induction n as [|n IH]; intros agent retries last w Hn;
    rewrite retry_loop_S;
    destruct (call_process_task_spec key agent task w)
      as (w1 & a1 & r & -> & Hag & Hwf & Hh & Hv & Hx & Hi & Hs & Hd);
    destruct (decide (res_status r = SUCCESS)) as [Hok|Hko];
    [ | destruct (retry_on_failure step) eqn:Hr; cbn [negb]
      | | destruct (retry_on_failure step) eqn:Hr; cbn [negb] ].
  all: try (replace (retries + 1 <=? max_retries step) with false by lia;
            cbn [retry_loop]).
  all: try (exists w1, [], r, a1; cbn [app length backoff replicate];
            rewrite ?app_nil_r; split_and!; auto with lia; done).
  replace (retries + 1 <=? max_retries step) with true by lia.
  destruct (IH a1 (retries + 1) (Some r) (sleep (2 ^ (retries + 1)) w1))
    as (w' & fails & r' & a' & -> & Hag' & Hwf' & Hh' & Hf & Hl & Hstop & _ & Hs' & Hd');
    [lia|].
  exists w', (r :: fails), r', a'. cbn [length backoff].
  split_and!; auto with lia.
  - rewrite Hag'. cbn [sleep agents]. rewrite Hag. apply insert_insert_eq.
  - rewrite Hwf'. cbn [sleep workflows]. exact Hwf.
  - rewrite Hh', Hh. rewrite <- !app_assoc. reflexivity.
  - intros _. destruct (Hstop eq_refl); [left|right]; auto.
  - rewrite Hs'. cbn [sleep trace]. unfold sleeps at 1.
    rewrite omap_app. fold (sleeps (trace w1)). rewrite Hs.
    cbn [omap]. rewrite <- app_assoc. reflexivity.
  - rewrite Hd'. cbn [sleep trace]. unfold dispatched_tasks at 1.
    rewrite omap_app. fold (dispatched_tasks (trace w1)). rewrite Hd.
    cbn [omap]. rewrite app_nil_r, <- app_assoc. reflexivity.
Qed.

Lemma call_process_task_status key agent task w :
  validate_input agent (task_history agent) task = Returned true ->
  let r := (call_process_task key agent task w).2 in
  match (execute agent (task_history agent) task).2 with
  | Returned r0 => res_status r = res_status r0
  | Raised _ => res_status r <> SUCCESS
  end.
Proof.
  intros Hv. cbv zeta. rewrite call_process_task_result.
  exact (process_task_accepted_status agent task (now w) Hv).
Qed.

(** One failing attempt of the loop, followed by its backoff. *)
Lemma retry_loop_failed_attempt n step key agent task retries last w :
  retry_on_failure step = true ->
  retries + 1 <= max_retries step ->
  validate_input agent (task_history agent) task = Returned true ->
  attempt_fails (execute agent (task_history agent) task).2 ->
  exists w1 a1 r1,
    retry_loop (S n) step key agent task retries last w
    = retry_loop n step key a1 task (retries + 1) (Some r1)
        (sleep (2 ^ (retries + 1)) w1)
    /\ agents w1 = <[key := a1]> (agents w)
    /\ task_history a1 = task_history agent ++ [r1]
    /\ validate_input a1 = validate_input agent
    /\ execute a1 = execute agent
    /\ sleeps (trace w1) = sleeps (trace w).
Proof.
  intros Hr Hle Hv Hf. rewrite retry_loop_S.
  pose proof (call_process_task_status key agent task w Hv) as Hst.
  destruct (call_process_task_spec key agent task w)
    as (w1 & a1 & r & Hc & Hag & Hwf & Hh & Hv' & Hx & Hi & Hs & Hd).
  rewrite Hc in Hst |- *. cbn [snd] in Hst.
  assert (res_status r <> SUCCESS) as Hko.
  { destruct (execute agent (task_history agent) task).2; cbn in Hf; congruence. }
  destruct (decide (res_status r = SUCCESS)); [done|].
  rewrite Hr. cbn [negb].
  replace (retries + 1 <=? max_retries step) with true by lia.
  exists w1, a1, r. auto 10.
Qed.

(** One successful attempt ends the loop. *)
Lemma retry_loop_successful_attempt n step key agent task retries last w :
  validate_input agent (task_history agent) task = Returned true ->
  (exists r0, (execute agent (task_history agent) task).2 = Returned r0
              /\ res_status r0 = SUCCESS) ->
  exists w1 a1 r1,
    retry_loop (S n) step key agent task retries last w = (w1, inr r1)
    /\ res_status r1 = SUCCESS
    /\ agents w1 = <[key := a1]> (agents w)
    /\ task_history a1 = task_history agent ++ [r1]
    /\ sleeps (trace w1) = sleeps (trace w).
Proof.
  intros Hv (r0 & Hx0 & Hok). rewrite retry_loop_S.
  pose proof (call_process_task_status key agent task w Hv) as Hst.
  destruct (call_process_task_spec key agent task w)
    as (w1 & a1 & r & Hc & Hag & Hwf & Hh & Hv' & Hx & Hi & Hs & Hd).
  rewrite Hc in Hst |- *. cbn [snd] in Hst. rewrite Hx0 in Hst.
  destruct (decide (res_status r = SUCCESS)); [|congruence].
  exists w1, a1, r. auto 10.
Qed.


Lemma flaky_fails_twice_then_succeeds task :
  fails_twice_then_succeeds (flaky "a" 2) task.
Proof.
  split_and!; [reflexivity | |]; intros h Hh; cbn in *.
  - destruct (Nat.leb_spec (length h) 1); [exact I | lia].
  - destruct (Nat.leb_spec (length h) 1); [lia | eauto].
Qed.


(* ===================================================================== *)
(** * Rejected input                                                      *)
(* ===================================================================== *)

Lemma call_process_task_rejected key agent task w :
  validate_input agent (task_history agent) task = Returned false ->
  exists w' agent',
    call_process_task key agent task w
    = (w', agent', rejected_result (agent_id agent) task)
    /\ agents w' = <[key := agent']> (agents w)
    /\ task_history agent'
       = task_history agent ++ [rejected_result (agent_id agent) task]
    /\ validate_input agent' = validate_input agent
    /\ agent_id agent' = agent_id agent
    /\ status agent' = FAILED
    /\ trace w' = trace w ++ [EvProcess (agent_id agent) task].
Proof.
  intros Hv. unfold call_process_task, process_task.
  cbn [validate_input set_status task_history agent_id]. rewrite Hv.
  cbn -[Z.sub]. unfold error_result. cbn [agent_id]. rewrite Z.sub_diag.
  eexists _, _. split; [reflexivity|]. cbn. auto 10.
Qed.

Lemma retry_loop_rejected step key task n :
  forall agent retries last w,
    (forall h t, validate_input agent h t = Returned false) ->
    Z.of_nat (S n) = max_retries step + 1 - retries ->
    let r := rejected_result (agent_id agent) task in
    let attempts := if retry_on_failure step then S n else 1%nat in
    exists w' agent',
      retry_loop (S n) step key agent task retries last w = (w', inr r)
      /\ agents w' = <[key := agent']> (agents w)
      /\ task_history agent' = task_history agent ++ replicate attempts r
      /\ status agent' = FAILED
      /\ executed (trace w') = executed (trace w)
      /\ dispatched (trace w')
         = dispatched (trace w) ++ replicate attempts (task_id task).
Proof.
  induction n as [|n IH]; intros agent retries last w Hv Hn; cbv zeta;
    rewrite retry_loop_S;
    destruct (call_process_task_rejected key agent task w (Hv _ _))
      as (w1 & a1 & -> & Hag & Hh & Hv1 & Hi & Hst & Htr);
    (destruct (decide _) as [Hok|_]; [discriminate Hok|]);
    destruct (retry_on_failure step) eqn:Hr; cbn [negb].
  all: try (replace (retries + 1 <=? max_retries step) with false by lia;
            cbn [retry_loop]).
  all: try (exists w1, a1; rewrite Htr; unfold executed, dispatched;
            rewrite !omap_app, ?app_nil_r; cbn [omap replicate];
            rewrite ?app_nil_r; split_and!; auto; done).
  replace (retries + 1 <=? max_retries step) with true by lia.
  specialize (IH a1 (retries + 1) (Some (rejected_result (agent_id agent) task))
                (sleep (2 ^ (retries + 1)) w1)).
  cbv zeta in IH. rewrite Hi in IH.
  destruct IH as (w' & a' & Hrun & Hag' & Hh' & Hst' & Hex & Hdi);
    [intros; rewrite Hv1; apply Hv | lia |].
  rewrite Hrun. exists w', a'. split_and!; auto.
  - rewrite Hag'. cbn [sleep agents]. rewrite Hag. apply insert_insert_eq.
  - rewrite Hh', Hh, <- app_assoc. reflexivity.
  - rewrite Hex. cbn [sleep trace]. rewrite Htr. unfold executed.
    rewrite !omap_app. cbn [omap]. rewrite !app_nil_r. reflexivity.
  - rewrite Hdi. cbn [sleep trace]. rewrite Htr. unfold dispatched.
    rewrite !omap_app. cbn [omap]. rewrite app_nil_r, <- app_assoc. reflexivity.
Qed.




(* ===================================================================== *)
(** * execute_workflow: the status of a run                               *)
(* ===================================================================== *)




(** C2 at its failing input.  In the workflow [chain], step A is required
    and its only attempt fails; step B depends on A.  Run in parallel mode,
    A's FAILED result is stored like any other, A is marked completed, B
    is dispatched in the next wave and the run ends "partial_success".
    Run sequentially, the same workflow stops after A with "failed". *)
Theorem C2_parallel_required_failure_not_aborted :
  optional (new_step "A" "a" [] 0) = false
  /\ (exists w' res,
        execute_workflow 3 "chain" ∅ (chain_world true) = Some (w', inr res)
        /\ or_status res = "partial_success"
        /\ errors res = ["a: boom"]
        /\ dispatched (trace w') = ["A"; "B"])
  /\ (exists w' res,
        execute_workflow 3 "chain" ∅ (chain_world false) = Some (w', inr res)
        /\ or_status res = "failed"
        /\ errors res = ["Required step A failed: boom"]
        /\ dispatched (trace w') = ["A"]).
Proof.
  split; [reflexivity|].
  split; eexists _, _; (split; [vm_compute; reflexivity|]);
    vm_compute; auto.
Qed.

(** C9 at its failing input.  The id "ghost" is not registered and is
    skipped when the tasks are created, but the results are paired with
    the unfiltered id list: the result produced by worker "b" is returned
    under the key "ghost", and "b" has no entry. *)
Theorem C9_unregistered_id_shifts_results :
  let w := chain_world true in
  let '(_, agent_results) := coordinate_agents ["ghost"; "b"] "goal" ∅ w in
  agents w !! "ghost" = None
  /\ is_Some (agents w !! "b")
  /\ dict_get "b" agent_results = None
  /\ exists r, agent_results = [("ghost", r)]
       /\ res_agent_id r = "b" /\ res_task_id r = "b_0".
Proof.
  vm_compute. split_and!; eauto.
Qed.

(* ===================================================================== *)
(** * _execute_parallel: waves                                            *)
(* ===================================================================== *)

Lemma parallel_loop_waves wf ctx n r c w r2 c2 w2 :
  waves wf ctx n r c w r2 c2 w2 ->
  forall fuel,
    parallel_loop (n + fuel) wf ctx r c w = parallel_loop fuel wf ctx r2 c2 w2.
Proof.
  induction 1 as [|n r c w w1 outs r1 c1 r2 c2 w2 Hlt Hne Hg Hp _ IH];
    intros fuel; [reflexivity|].
  cbn [Nat.add parallel_loop].
  apply Nat.ltb_lt in Hlt. rewrite Hlt.
  destruct (ready_steps wf c) as [|s l] eqn:Hready; [done|].
  rewrite Hg, Hp. apply IH.
Qed.

Lemma parallel_loop_stalled wf ctx fuel r c w :
  (size c < length (steps wf))%nat ->
  ready_steps wf c = [] ->
  parallel_loop (S fuel) wf ctx r c w = Some (w, inr r).
Proof.
  intros Hlt Hready. cbn [parallel_loop].
  apply Nat.ltb_lt in Hlt. rewrite Hlt, Hready. reflexivity.
Qed.

(** C3, as the code has it.  When, after any number of waves, the ready
    wave is empty while steps remain uncompleted, [_execute_parallel]
    leaves the loop and returns the results gathered so far; nothing is
    raised, and [execute_workflow] reports them as a normal completion
    whose status is "success" or "partial_success" by [errors] alone. *)
Theorem C3_stalled_wave_returns_partial_results
    wf id ctx w n results completed w2 fuel :
  workflows w !! id = Some wf ->
  parallel_execution wf = true ->
  waves wf ctx n [] ∅ w results completed w2 ->
  (size completed < length (steps wf))%nat ->
  ready_steps wf completed = [] ->
  (n < fuel)%nat ->
  _execute_parallel fuel wf ctx w = Some (w2, inr results)
  /\ exists w' res,
       execute_workflow fuel id ctx w = Some (w', inr res)
       /\ agent_results res = results
       /\ errors res = collect_errors results
       /\ or_status res
          = match collect_errors results with
            | [] => "success"
            | _ => "partial_success"
            end
       /\ or_status res <> "failed".
Proof.
  intros Hwf Hpar Hwaves Hlt Hready Hfuel.
  assert (_execute_parallel fuel wf ctx w = Some (w2, inr results)) as Hrun.
  { unfold _execute_parallel.
    replace fuel with (n + S (fuel - S n))%nat by lia.
    rewrite (parallel_loop_waves _ _ _ _ _ _ _ _ _ Hwaves).
    apply parallel_loop_stalled; assumption. }
  split; [exact Hrun|].
  unfold execute_workflow, run_steps. rewrite Hwf, Hpar, Hrun. cbn.
  eexists _, _. split; [reflexivity|]. cbn.
  split_and!; try reflexivity.
  destruct (collect_errors results); discriminate.
Qed.

Lemma C3_stalled_wave_returns_partial_results_witness :
  _execute_parallel 2 stalled ∅ stalled_world
  = Some (stalled_after_A.1, inr stalled_results)
  /\ exists w' res,
       execute_workflow 2 "stalled" ∅ stalled_world = Some (w', inr res)
       /\ agent_results res = stalled_results
       /\ errors res = collect_errors stalled_results
       /\ or_status res
          = match collect_errors stalled_results with
            | [] => "success"
            | _ => "partial_success"
            end
       /\ or_status res <> "failed".
Proof.
  refine (C3_stalled_wave_returns_partial_results stalled "stalled" ∅
            stalled_world 1 stalled_results {["A"]} stalled_after_A.1 2
            _ _ _ _ _ _).
  - reflexivity.
  - reflexivity.
  - refine (waves_S stalled ∅ 0 [] ∅ stalled_world stalled_after_A.1
              stalled_after_A.2 _ _ _ _ _ _ _ _ _ (waves_O _ _ _ _ _)).
    + vm_compute. lia.
    + vm_compute. discriminate.
    + reflexivity.
    + vm_compute. reflexivity.
  - vm_compute. lia.
  - vm_compute. reflexivity.
  - lia.
Defined.

(** C3 as stated fails: the only step of [knot] depends on itself, the
    first ready wave is empty with one step uncompleted, and the run
    completes normally with status "success" and no results. *)
Lemma C3_counterexample :
  ready_steps knot ∅ = []
  /\ (size (∅ : gset string) < length (steps knot))%nat
  /\ _execute_parallel 1 knot ∅ knot_world = Some (knot_world, inr [])
  /\ exists w' res,
       execute_workflow 1 "knot" ∅ knot_world = Some (w', inr res)
       /\ or_status res = "success"
       /\ agent_results res = []
       /\ errors res = []
       /\ dispatched (trace w') = [].
Proof.
  split; [reflexivity|]. split; [vm_compute; lia|]. split; [reflexivity|].
  eexists _, _. split; [vm_compute; reflexivity|]. vm_compute. auto.
Qed.

(* ===================================================================== *)
(** * Context propagation                                                 *)
(* ===================================================================== *)

Lemma list_ascii_of_append (a b : string) :
  String.list_ascii_of_string (a +:+ b)
  = String.list_ascii_of_string a ++ String.list_ascii_of_string b.
Proof. induction a as [|c a IH]; simpl; [reflexivity | f_equal; exact IH]. Qed.

Lemma append_inv_tail (a b s : string) : a +:+ s = b +:+ s -> a = b.
Proof.
  intros H. apply (f_equal String.list_ascii_of_string) in H.
  rewrite !list_ascii_of_append in H. apply app_inv_tail in H.
  rewrite <- (String.string_of_list_ascii_of_string a), H.
  apply String.string_of_list_ascii_of_string.
Qed.

(** Keys of a dict are unique: two entries under one key are the same. *)
Lemma dict_entry_unique {V} (d : list (string * V)) k v1 v2 :
  NoDup d.*1 -> (k, v1) ∈ d -> (k, v2) ∈ d -> v1 = v2.
Proof.
  induction d as [|[k' v'] d IH]; cbn; intros Hnd H1 H2; [inversion H1|].
  apply NoDup_cons in Hnd as [Hk Hnd].
  apply elem_of_cons in H1 as [H1|H1]; apply elem_of_cons in H2 as [H2|H2];
    simplify_eq; auto.
  all: exfalso; apply Hk; apply list_elem_of_fmap; eexists (_, _);
    (split; [|eassumption]); reflexivity.
Qed.

Section build_context.
Context (step : WorkflowStep) (prev : list (string * AgentResult)).
Hypothesis prev_keys : NoDup prev.*1.

(** Keys no stored dependency result maps to keep their value. *)
Lemma inner_loop_other dep k (l : list (string * AgentResult)) m :
  (forall a r, (a, r) ∈ l -> res_task_id r = dep -> k <> a +:+ "_result") ->
  fold_left (add_dependency dep) l m !! k = m !! k.
Proof.
  revert m. induction l as [|[a r] l IH]; intros m Hk; [reflexivity|].
  cbn [fold_left]. rewrite IH.
  - unfold add_dependency. cbn [fst snd]. case_decide as Hd; [|reflexivity].
    apply lookup_insert_ne. intros Heq.
    apply (Hk a r); [left | exact Hd | by rewrite Heq].
  - intros a' r' Hin. apply (Hk a' r'). by right.
Qed.

Lemma build_context_other ctx k :
  (forall a r, (a, r) ∈ prev -> res_task_id r ∈ depends_on step ->
               k <> a +:+ "_result") ->
  build_context step ctx prev !! k = ctx !! k.
Proof.
  unfold build_context. generalize (depends_on step) as deps.
  intros deps. revert ctx.
  induction deps as [|d deps IH]; intros ctx Hk; [reflexivity|].
  cbn [fold_left]. rewrite IH.
  - apply inner_loop_other. intros a r Hin Hd.
    apply (Hk a r); [done|]. subst. left.
  - intros a r Hin Hd. apply (Hk a r); [done|]. by right.
Qed.

(** Once the entry for a stored result is written it stays. *)
Lemma add_dependency_keeps a r dep m item :
  (a, r) ∈ prev -> item ∈ prev -> holds a r m ->
  holds a r (add_dependency dep m item).
Proof.
  intros Hin Hitem Hm. unfold add_dependency, holds. case_decide; [|exact Hm].
  destruct item as [a' r']. cbn.
  destruct (decide (a' +:+ "_result" = a +:+ "_result")) as [Heq|Hne].
  - apply append_inv_tail in Heq as ->.
    rewrite (dict_entry_unique prev a r r' prev_keys Hin Hitem).
    apply lookup_insert_eq.
  - rewrite lookup_insert_ne by done. exact Hm.
Qed.

Lemma inner_loop_keeps a r dep l m :
  (a, r) ∈ prev -> l ⊆ prev -> holds a r m ->
  holds a r (fold_left (add_dependency dep) l m).
Proof.
  intros Hin. revert m. induction l as [|item l IH]; intros m Hl Hm; [exact Hm|].
  cbn [fold_left]. apply IH; [set_solver|].
  apply add_dependency_keeps; [done|set_solver|done].
Qed.

Lemma inner_loop_writes a r l m :
  (a, r) ∈ prev -> l ⊆ prev -> (a, r) ∈ l ->
  holds a r (fold_left (add_dependency (res_task_id r)) l m).
Proof.
  intros Hin. revert m. induction l as [|item l IH]; intros m Hl Hal;
    [inversion Hal|].
  cbn [fold_left]. apply elem_of_cons in Hal as [<-|Hal].
  - apply inner_loop_keeps; [done|set_solver|].
    unfold add_dependency, holds. cbn. rewrite decide_True by done.
    apply lookup_insert_eq.
  - apply IH; [set_solver|done].
Qed.

Lemma build_context_entry ctx a r :
  (a, r) ∈ prev -> res_task_id r ∈ depends_on step ->
  holds a r (build_context step ctx prev).
Proof.
  intros Hin. unfold build_context. generalize (depends_on step) as deps.
  intros deps Hd.
  assert (forall l m, holds a r m ->
            holds a r (fold_left (fun c d => fold_left (add_dependency d) prev c) l m))
    as Hkeep.
  { induction l as [|d l IH]; intros m Hm; [exact Hm|]. cbn [fold_left].
    apply IH. by apply inner_loop_keeps. }
  revert ctx. induction deps as [|d deps IH]; intros ctx; [inversion Hd|].
  cbn [fold_left]. apply elem_of_cons in Hd as [<-|Hd].
  - apply Hkeep. by apply inner_loop_writes.
  - by apply IH.
Qed.
End build_context.

(** The context depends only on the stored results that belong to one of
    the step's dependencies. *)
Lemma build_context_ext step ctx (prev1 prev2 : list (string * AgentResult)) :
  NoDup prev1.*1 -> NoDup prev2.*1 ->
  (forall a r, res_task_id r ∈ depends_on step ->
               (a, r) ∈ prev1 <-> (a, r) ∈ prev2) ->
  build_context step ctx prev1 = build_context step ctx prev2.
Proof.
  intros Hn1 Hn2 Hsame. apply map_eq. intros k.
  destruct (decide (Exists (fun item : string * AgentResult =>
                      res_task_id item.2 ∈ depends_on step
                      /\ k = item.1 +:+ "_result") prev1)) as [Hex|Hno].
  - apply Exists_exists in Hex as ([a r] & Hin & Hd & ->). cbn in *.
    rewrite (build_context_entry step prev1 Hn1 ctx a r Hin Hd).
    symmetry. apply (build_context_entry step prev2 Hn2 ctx a r); [|done].
    by apply Hsame.
  - rewrite !build_context_other; [done| |].
    + intros a r Hin Hd ->. apply Hno, Exists_exists. exists (a, r).
      split; [by apply Hsame|done].
    + intros a r Hin Hd ->. apply Hno, Exists_exists. by exists (a, r).
Qed.




(* ===================================================================== *)
(** * Parallel against sequential execution                               *)
(* ===================================================================== *)

(** ** The results dictionary *)

Lemma dict_set_keys {V} k (v : V) d k' :
  k' ∈ (dict_set k v d).*1 <-> k' = k \/ k' ∈ d.*1.
Proof.
  induction d as [|[k0 v0] d IH]; cbn.
  - rewrite list_elem_of_singleton. set_solver.
  - case_decide; subst; cbn; rewrite !elem_of_cons; [tauto|].
    rewrite IH. tauto.
Qed.

Lemma dict_set_NoDup {V} k (v : V) d :
  NoDup d.*1 -> NoDup (dict_set k v d).*1.
Proof.
  induction d as [|[k0 v0] d IH]; cbn; intros Hnd.
  - apply NoDup_singleton.
  - apply NoDup_cons in Hnd as [Hk Hnd].
    case_decide; subst; cbn; apply NoDup_cons; split; auto.
    rewrite dict_set_keys. intros [->|?]; done.
Qed.

Lemma dict_set_elem {V} k (v : V) d x :
  x ∈ dict_set k v d -> x = (k, v) \/ x ∈ d.
Proof.
  induction d as [|[k0 v0] d IH]; cbn.
  - rewrite list_elem_of_singleton. auto.
  - case_decide; subst; rewrite !elem_of_cons; [tauto|].
    intros [->|H']; [tauto|]. destruct (IH H'); tauto.
Qed.

Lemma dict_set_fresh {V} k (v : V) d :
  k ∉ d.*1 -> dict_set k v d = d ++ [(k, v)].
Proof.
  induction d as [|[k0 v0] d IH]; cbn; intros Hk; [reflexivity|].
  apply not_elem_of_cons in Hk as [Hne Hk].
  rewrite decide_False by done. by rewrite IH.
Qed.

(** ** One attempt, whenever it is made *)

Lemma process_task_any_time agent task start :
  (process_task agent task start).1.1 = attempt agent task.
Proof.
  unfold attempt. worker_cases;
    rewrite ?Z.add_simpl_l, ?Z.sub_diag; reflexivity.
Qed.

Lemma dispatched_task_ids tr : dispatched tr = task_id <$> dispatched_tasks tr.
Proof.
  induction tr as [|e tr IH]; [reflexivity|].
  destruct e; cbn [dispatched dispatched_tasks omap fmap list_fmap] in *;
    cbn; fold (dispatched tr) (dispatched_tasks tr); rewrite IH; reflexivity.
Qed.

Lemma call_process_task_attempt key agent task w :
  exists w',
    call_process_task key agent task w
    = (w', (attempt agent task).1, (attempt agent task).2)
    /\ agents w' = <[key := (attempt agent task).1]> (agents w)
    /\ dispatched (trace w') = dispatched (trace w) ++ [task_id task].
Proof.
  unfold call_process_task.
  pose proof (process_task_any_time agent task (now w)) as Hany.
  pose proof (process_task_enters agent task (now w)) as Hent.
  destruct (process_task agent task (now w)) as [[[a' r] fin] evs].
  cbn in Hany. rewrite <- Hany. cbn [fst snd].
  eexists. split; [reflexivity|]. split; [reflexivity|]. cbn [trace].
  destruct Hent as [Hd _]. unfold dispatched at 1. rewrite omap_app.
  fold (dispatched (trace w)) (dispatched evs).
  by rewrite (dispatched_task_ids evs), Hd.
Qed.

Lemma dispatched_length tr : length (dispatched tr) = length (dispatched_tasks tr).
Proof. by rewrite dispatched_task_ids, length_fmap. Qed.

(** A step whose worker is registered and whose first attempt is SUCCESS
    returns that attempt's result after a single dispatch. *)
Lemma _execute_step_first_success step ctx prev w agent :
  agents w !! step_agent_id step = Some agent ->
  0 <= max_retries step ->
  res_status (attempt agent (build_task step ctx prev)).2 = SUCCESS ->
  exists w',
    _execute_step step ctx prev w
    = (w', inr (attempt agent (build_task step ctx prev)).2)
    /\ agents w'
       = <[step_agent_id step := (attempt agent (build_task step ctx prev)).1]>
           (agents w)
    /\ dispatched (trace w') = dispatched (trace w) ++ [step_id step].
Proof.
  intros Hag Hn Hok. unfold _execute_step. rewrite Hag.
  replace (Z.to_nat (max_retries step + 1))
    with (S (Z.to_nat (max_retries step))) by lia.
  rewrite retry_loop_S.
  destruct (call_process_task_attempt (step_agent_id step) agent
              (build_task step ctx prev) w) as (w' & -> & Hags & Hd).
  rewrite decide_True by exact Hok. exists w'. auto.
Qed.

(** Conversely: a step that returns SUCCESS after a single dispatch had a
    registered worker whose first attempt produced that result. *)
Lemma _execute_step_single_dispatch step ctx prev w w' r :
  _execute_step step ctx prev w = (w', inr r) ->
  res_status r = SUCCESS ->
  dispatched (trace w') = dispatched (trace w) ++ [step_id step] ->
  exists agent,
    agents w !! step_agent_id step = Some agent
    /\ 0 <= max_retries step
    /\ (attempt agent (build_task step ctx prev)).2 = r
    /\ agents w'
       = <[step_agent_id step := (attempt agent (build_task step ctx prev)).1]>
           (agents w).
Proof.
  unfold _execute_step. intros Hrun Hok Hd.
  destruct (agents w !! step_agent_id step) as [agent|]; [|discriminate].
  exists agent. split; [reflexivity|].
  destruct (Z.to_nat (max_retries step + 1)) as [|n] eqn:Hn; [discriminate|].
  split; [lia|]. rewrite retry_loop_S in Hrun.
  destruct (call_process_task_attempt (step_agent_id step) agent
              (build_task step ctx prev) w) as (w1 & Hc & Hags & Hd1).
  rewrite Hc in Hrun.
  destruct (decide (res_status (attempt agent (build_task step ctx prev)).2
                    = SUCCESS)) as [_|Hko].
  { injection Hrun as <- <-. auto. }
  exfalso. destruct (retry_on_failure step); cbn [negb] in Hrun.
  2:{ injection Hrun as <- <-. done. }
  destruct n as [|n].
  { cbn in Hrun. injection Hrun as <- <-. done. }
  destruct (retry_loop_spec step (step_agent_id step) (build_task step ctx prev) n
              (attempt agent (build_task step ctx prev)).1 (0 + 1)
              (Some (attempt agent (build_task step ctx prev)).2)
              (if 0 + 1 <=? max_retries step then sleep (2 ^ (0 + 1)) w1 else w1))
    as (w2 & fails & r2 & a2 & Hrun2 & _ & _ & _ & _ & _ & _ & _ & _ & Hd2); [lia|].
  rewrite Hrun2 in Hrun. injection Hrun as <- <-.
  apply (f_equal length) in Hd, Hd2. rewrite dispatched_length in Hd.
  rewrite Hd2 in Hd. rewrite !length_app, length_replicate in Hd.
  assert (length (dispatched_tasks (trace
            (if 0 + 1 <=? max_retries step then sleep (2 ^ (0 + 1)) w1 else w1)))
          = length (dispatched (trace w1))) as Hlen.
  { rewrite dispatched_length. destruct (0 + 1 <=? max_retries step); [|done].
    cbn [sleep trace]. unfold dispatched_tasks. rewrite omap_app. cbn.
    by rewrite app_nil_r. }
  rewrite Hlen, Hd1, length_app in Hd. cbn in Hd. lia.
Qed.

(** ** The sequential run *)

Lemma sequential_loop_prefixes ctx w0 todo :
  forall R w,
    first_attempt_success todo ctx R w ->
    NoDup (step_agent_id <$> todo) ->
    (forall s, s ∈ todo -> step_agent_id s ∉ R.*1) ->
    (forall s, s ∈ todo ->
       agents w !! step_agent_id s = agents w0 !! step_agent_id s) ->
    exists ws new,
      sequential_loop todo ctx R w = (ws, inr (R ++ new))
      /\ new.*1 = step_agent_id <$> todo
      /\ forall i s, todo !! i = Some s ->
           exists r, new !! i = Some (step_agent_id s, r)
                     /\ table_entry ctx w0 (R ++ take i new) s r.
Proof.
  induction todo as [|s todo IH]; intros R w Hfirst Hnd Hfresh Hinit.
  { exists w, []. rewrite app_nil_r. split_and!; try done. }
  destruct Hfirst as (w1 & r & Hrun & Hok & Hecho & Hd & Hrest).
  destruct (_execute_step_single_dispatch s ctx R w w1 r Hrun Hok Hd)
    as (agent & Hag & Hn & Hatt & Hags).
  cbn [fmap list_fmap] in Hnd. apply NoDup_cons in Hnd as [Hs Hnd].
  rewrite dict_set_fresh in Hrest by (apply Hfresh; left).
  destruct (IH (R ++ [(step_agent_id s, r)]) w1 Hrest Hnd)
    as (ws & new & Hloop & Hkeys & Htable).
  { intros s' Hs'. rewrite fmap_app. cbn. rewrite elem_of_app.
    intros [Hin|Hin%list_elem_of_singleton].
    - by apply (Hfresh s'); [right|].
    - apply Hs. rewrite <- Hin. by apply list_elem_of_fmap_2. }
  { intros s' Hs'. rewrite Hags, lookup_insert_ne.
    - apply Hinit. by right.
    - intros Heq. apply Hs. rewrite Heq. by apply list_elem_of_fmap_2. }
  exists ws, ((step_agent_id s, r) :: new). split_and!.
  - cbn [sequential_loop]. rewrite Hrun, Hok. cbn [bool_decide andb].
    rewrite dict_set_fresh by (apply Hfresh; left).
    rewrite Hloop. by rewrite <- app_assoc.
  - cbn. by rewrite Hkeys.
  - intros [|i] s' Hs'; cbn in Hs'.
    + injection Hs' as <-. exists r. split; [done|]. cbn. rewrite app_nil_r.
      exists agent. rewrite <- (Hinit s) by left. auto.
    + destruct (Htable i s' Hs') as (r' & Hnew & Hentry).
      exists r'. split; [done|]. cbn [take]. by rewrite <- app_assoc in Hentry.
Qed.

Lemma NoDup_fmap_eq {A B} (f : A -> B) (l : list A) x y :
  NoDup (f <$> l) -> x ∈ l -> y ∈ l -> f x = f y -> x = y.
Proof.
  intros Hnd [i Hi]%list_elem_of_lookup [j Hj]%list_elem_of_lookup Heq.
  assert (i = j) as ->.
  { apply (NoDup_lookup (f <$> l) i j (f x)); [done| |];
      rewrite list_lookup_fmap; [by rewrite Hi | by rewrite Hj, Heq]. }
  congruence.
Qed.

Lemma filter_sublist {A} (p : A -> bool) (l : list A) :
  List.filter p l `sublist_of` l.
Proof.
  induction l as [|x l IH]; cbn; [constructor|].
  destruct (p x); by constructor.
Qed.

Lemma elem_of_filter_bool {A} (p : A -> bool) (l : list A) x :
  x ∈ List.filter p l <-> x ∈ l /\ p x = true.
Proof. rewrite !list_elem_of_In. apply filter_In. Qed.

Section agreement.
Context (ctx : gmap string pyval) (w0 : World) (wf : Workflow).
Context (table : list (string * AgentResult)).
Hypothesis ids_distinct : NoDup (step_id <$> steps wf).
Hypothesis agents_distinct : NoDup (step_agent_id <$> steps wf).
Hypothesis order : deps_respected (steps wf).
Hypothesis table_keys : table.*1 = step_agent_id <$> steps wf.
Hypothesis table_prefixes :
  forall i s, steps wf !! i = Some s ->
    exists r, table !! i = Some (step_agent_id s, r)
              /\ table_entry ctx w0 (take i table) s r.

Lemma table_NoDup : NoDup table.*1.
Proof. by rewrite table_keys. Qed.

(** Every entry of the table belongs to a step and carries its id. *)
Lemma table_owner a r :
  (a, r) ∈ table ->
  exists i s, steps wf !! i = Some s /\ table !! i = Some (a, r)
              /\ a = step_agent_id s /\ res_task_id r = step_id s.
Proof.
  intros [i Hi]%list_elem_of_lookup.
  assert (is_Some (steps wf !! i)) as [s Hs].
  { apply lookup_lt_is_Some. apply lookup_lt_Some in Hi.
    apply (f_equal length) in table_keys. rewrite !length_fmap in table_keys.
    lia. }
  destruct (table_prefixes i s Hs) as (r' & Hr' & agent & _ & _ & _ & _ & Hid).
  rewrite Hi in Hr'. injection Hr' as -> ->. eauto 10.
Qed.

(** The task of a step is the same against the prefix of the table it
    saw and against the whole table. *)
Lemma prefix_context i s :
  steps wf !! i = Some s ->
  build_context s ctx (take i table) = build_context s ctx table.
Proof.
  intros Hs. apply build_context_ext.
  - rewrite fmap_take. eapply sublist_NoDup; [apply table_NoDup|].
    apply sublist_take.
  - apply table_NoDup.
  - intros a r Hd. split.
    + intros Hin. eapply elem_of_sublist; [exact Hin | apply sublist_take].
    + intros Hin. destruct (table_owner a r Hin) as (j & s' & Hs' & Hj & -> & Hid).
      apply elem_of_take. exists j. split; [done|].
      rewrite Hid in Hd.
      pose proof (order (take i (steps wf)) s (drop (S i) (steps wf))
                    (eq_sym (take_drop_middle _ _ _ Hs)) _ Hd) as Hearlier.
      rewrite fmap_take in Hearlier.
      apply elem_of_take in Hearlier as (j' & Hj' & Hlt).
      assert (j = j') as ->; [|done].
      apply (NoDup_lookup (step_id <$> steps wf) j j' (step_id s'));
        [done | | done].
      by rewrite list_lookup_fmap, Hs'.
Qed.

Lemma table_complete s :
  s ∈ steps wf ->
  exists r, (step_agent_id s, r) ∈ table /\ table_entry ctx w0 table s r.
Proof.
  intros [i Hs]%list_elem_of_lookup.
  destruct (table_prefixes i s Hs) as (r & Hr & agent & Hag & Hn & Hatt & Hok & Hid).
  exists r. split; [by eapply list_elem_of_lookup_2|].
  exists agent. split_and!; try done.
  unfold build_task in *. by rewrite <- (prefix_context i s Hs).
Qed.

(** ** The parallel run *)

Lemma ready_context R C s :
  NoDup R.*1 ->
  (forall x, x ∈ R -> x ∈ table) ->
  (forall s, s ∈ steps wf -> step_id s ∈ C <-> step_agent_id s ∈ R.*1) ->
  is_ready C s = true ->
  build_context s ctx R = build_context s ctx table.
Proof.
  intros Hnd Hsub Hdone Hready. apply build_context_ext;
    [done | apply table_NoDup |].
  intros a r Hd. split; [by apply Hsub|]. intros Hin.
  destruct (table_owner a r Hin) as (j & s' & Hs' & _ & -> & Hid).
  apply andb_true_iff in Hready as [_ Hdeps].
  rewrite forallb_forall in Hdeps. rewrite Hid in Hd.
  apply list_elem_of_In, Hdeps, bool_decide_eq_true in Hd.
  apply Hdone in Hd; [|by eapply list_elem_of_lookup_2].
  apply list_elem_of_fmap in Hd as ([a' r'] & Ha' & Hin'). cbn in Ha'. subst a'.
  by rewrite (dict_entry_unique table _ r r' table_NoDup Hin (Hsub _ Hin')).
Qed.

(** A wave of ready steps: each returns its table entry, and only the
    workers of the wave are touched. *)
Lemma gather_wave R C ready :
  NoDup R.*1 ->
  (forall x, x ∈ R -> x ∈ table) ->
  (forall s, s ∈ steps wf -> step_id s ∈ C <-> step_agent_id s ∈ R.*1) ->
  forall w,
    NoDup (step_agent_id <$> ready) ->
    (forall s, s ∈ ready -> s ∈ steps wf /\ is_ready C s = true) ->
    (forall s, s ∈ ready ->
       agents w !! step_agent_id s = agents w0 !! step_agent_id s) ->
    exists w' outs,
      gather_steps ready ctx R w = (w', outs)
      /\ Forall2 (fun s out => exists r, out = inr r
                               /\ (step_agent_id s, r) ∈ table) ready outs
      /\ (forall a, a ∉ step_agent_id <$> ready ->
            agents w' !! a = agents w !! a).
Proof.
  intros Hnd Hsub Hdone. induction ready as [|s ready IH];
    intros w Hndr Hready Hinit.
  { exists w, []. split_and!; [done | constructor | done]. }
  cbn [fmap list_fmap] in Hndr. apply NoDup_cons in Hndr as [Hs Hndr].
  destruct (Hready s) as [HsL Hsr]; [left|].
  destruct (table_complete s HsL) as (r & Hr & agent & Hag & Hn & Hatt & Hok & Hid).
  assert (build_task s ctx R = build_task s ctx table) as Htask.
  { unfold build_task. by rewrite (ready_context R C s Hnd Hsub Hdone Hsr). }
  destruct (_execute_step_first_success s ctx R w agent) as (w1 & Hrun & Hags & _).
  { rewrite Hinit by left. exact Hag. }
  { exact Hn. }
  { rewrite Htask, Hatt. exact Hok. }
  rewrite Htask, Hatt in Hrun.
  destruct (IH w1 Hndr) as (w' & outs & Hg & Hall & Hother).
  { intros s' Hs'. apply Hready. by right. }
  { intros s' Hs'. rewrite Hags, lookup_insert_ne.
    - apply Hinit. by right.
    - intros Heq. apply Hs. rewrite Heq. by apply list_elem_of_fmap_2. }
  exists w', (inr r :: outs). split_and!.
  - cbn [gather_steps]. by rewrite Hrun, Hg.
  - constructor; eauto.
  - intros a Ha. cbn [fmap list_fmap] in Ha.
    apply not_elem_of_cons in Ha as [Hne Ha].
    rewrite (Hother a Ha), Hags. by apply lookup_insert_ne.
Qed.

(** Storing the results of such a wave. *)
Lemma process_wave ready outs :
  Forall2 (fun s out => exists r, out = inr r
                        /\ (step_agent_id s, r) ∈ table) ready outs ->
  forall R C,
    exists R',
      process_results (zip ready outs) R C
      = inr (R', list_to_set (step_id <$> ready) ∪ C)
      /\ (NoDup R.*1 -> NoDup R'.*1)
      /\ (forall x, x ∈ R' -> x ∈ R \/ x ∈ table)
      /\ (forall a, a ∈ R'.*1 <-> a ∈ R.*1 \/ a ∈ step_agent_id <$> ready).
Proof.
  induction 1 as [|s out ready outs (r & -> & Hr) _ IH]; intros R C.
  { exists R. cbn. split_and!; auto.
    - f_equal. f_equal. set_solver.
    - intros a. rewrite elem_of_nil. tauto. }
  destruct (IH (dict_set (step_agent_id s) r R) ({[step_id s]} ∪ C))
    as (R' & Hp & Hnd & Hel & Hk).
  exists R'. split_and!.
  - cbn. rewrite Hp. f_equal. f_equal. set_solver.
  - intros HR. by apply Hnd, dict_set_NoDup.
  - intros x Hx. destruct (Hel x Hx) as [Hx'|]; [|by right].
    apply dict_set_elem in Hx' as [->|]; auto.
  - intros a. rewrite Hk, dict_set_keys. cbn. rewrite elem_of_cons. tauto.
Qed.

(** With an empty ready wave every step is completed. *)
Lemma stalled_all_completed (C : gset string) :
  ready_steps wf C = [] ->
  forall i s, steps wf !! i = Some s -> step_id s ∈ C.
Proof.
  intros Hstall i. induction i as [i IH] using lt_wf_ind. intros s Hs.
  destruct (decide (step_id s ∈ C)) as [|Hout]; [done|]. exfalso.
  assert (s ∈ ready_steps wf C) as Hin; [|rewrite Hstall in Hin; inversion Hin].
  apply elem_of_filter_bool. split; [by eapply list_elem_of_lookup_2|].
  apply andb_true_intro. split; [by apply bool_decide_eq_true_2|].
  apply forallb_forall. intros d Hd%list_elem_of_In. apply bool_decide_eq_true_2.
  pose proof (order (take i (steps wf)) s (drop (S i) (steps wf))
                (eq_sym (take_drop_middle _ _ _ Hs)) _ Hd) as Hearlier.
  apply list_elem_of_fmap in Hearlier as (s' & -> & Hs').
  apply elem_of_take in Hs' as (j & Hj & Hlt). by apply (IH j Hlt).
Qed.

Lemma completed_bound (C : gset string) :
  C ⊆ list_to_set (step_id <$> steps wf) ->
  (size C <= length (steps wf))%nat.
Proof.
  intros HC. apply subseteq_size in HC.
  rewrite size_list_to_set, length_fmap in HC by done. exact HC.
Qed.

Lemma ready_nonempty (C : gset string) :
  C ⊆ list_to_set (step_id <$> steps wf) ->
  (size C < length (steps wf))%nat ->
  ready_steps wf C <> [].
Proof.
  intros HC Hlt Hstall.
  assert (list_to_set (step_id <$> steps wf) ⊆ C) as Hall.
  { intros id [s [-> Hs]]%elem_of_list_to_set%list_elem_of_fmap.
    apply list_elem_of_lookup in Hs as [i Hi].
    by apply (stalled_all_completed C Hstall i). }
  apply subseteq_size in Hall.
  rewrite size_list_to_set, length_fmap in Hall by done. lia.
Qed.

(** One wave keeps what holds between waves and completes a new step. *)
Lemma wave_step R (C : gset string) w :
  between_waves wf w0 table R C w ->
  (size C < length (steps wf))%nat ->
  let ready := ready_steps wf C in
  let C' := list_to_set (step_id <$> ready) ∪ C in
  ready <> []
  /\ exists w' outs R',
       gather_steps ready ctx R w = (w', outs)
       /\ process_results (zip ready outs) R C = inr (R', C')
       /\ between_waves wf w0 table R' C' w'
       /\ (size C < size C')%nat.
Proof.
  intros (Hnd & Hsub & Hdone & Hinit & HC) Hlt ready C'.
  pose proof (ready_nonempty C HC Hlt) as Hne. split; [exact Hne|].
  assert (forall s, s ∈ ready -> s ∈ steps wf /\ is_ready C s = true) as Hready.
  { intros s. apply elem_of_filter_bool. }
  assert (forall s, s ∈ ready -> step_id s ∉ C) as Hfresh.
  { intros s [_ [Hout _]%andb_true_iff]%Hready.
    by apply bool_decide_eq_true in Hout. }
  assert (forall s, s ∈ steps wf ->
            step_id s ∈ step_id <$> ready <-> step_agent_id s ∈ step_agent_id <$> ready)
    as Hsame.
  { intros s Hs. rewrite !list_elem_of_fmap.
    split; intros (s' & Heq & Hs'); exists s'; (split; [|done]);
      destruct (Hready s' Hs') as [HsL _].
    - by rewrite (NoDup_fmap_eq step_id (steps wf) s s' ids_distinct Hs HsL Heq).
    - by rewrite (NoDup_fmap_eq step_agent_id (steps wf) s s'
                    agents_distinct Hs HsL Heq). }
  destruct (gather_wave R C ready Hnd Hsub Hdone w)
    as (w' & outs & Hg & Hall & Hother).
  { eapply sublist_NoDup; [exact agents_distinct|].
    apply fmap_sublist, filter_sublist. }
  { exact Hready. }
  { intros s Hs. apply Hinit; [by apply Hready | by apply Hfresh]. }
  destruct (process_wave ready outs Hall R C) as (R' & Hp & Hnd' & Hel & Hk).
  exists w', outs, R'. split_and!; [done | done | | ].
  - split_and!.
    + by apply Hnd'.
    + intros x Hx. destruct (Hel x Hx); auto.
    + intros s Hs. unfold C'. rewrite elem_of_union, elem_of_list_to_set.
      rewrite Hk, (Hsame s Hs), (Hdone s Hs). tauto.
    + intros s Hs Hout. unfold C' in Hout.
      rewrite elem_of_union, elem_of_list_to_set in Hout.
      rewrite Hother; [apply Hinit; [done|tauto]|].
      rewrite <- (Hsame s Hs). tauto.
    + unfold C'. apply union_subseteq. split; [|done].
      intros id [s [-> Hs]]%elem_of_list_to_set%list_elem_of_fmap.
      apply elem_of_list_to_set, list_elem_of_fmap_2. by apply Hready.
  - apply subset_size. split; [unfold C'; set_solver|].
    destruct ready as [|s ready'] eqn:Hr; [done|].
    intros Hback. apply (Hfresh s); [left|]. apply Hback. unfold C'.
    cbn. set_solver.
Qed.

(** From any state between waves the loop runs to the end. *)
Lemma parallel_loop_completes m :
  forall fuel R C w,
    between_waves wf w0 table R C w ->
    (length (steps wf) - size C <= m)%nat ->
    (m < fuel)%nat ->
    exists w' R',
      parallel_loop fuel wf ctx R C w = Some (w', inr R')
      /\ NoDup R'.*1
      /\ (forall x, x ∈ R' -> x ∈ table)
      /\ (forall s, s ∈ steps wf -> step_agent_id s ∈ R'.*1).
Proof.
  induction m as [|m IH]; intros fuel R C w Hinv Hm Hfuel;
    (destruct fuel as [|fuel]; [lia|]); cbn [parallel_loop];
    pose proof Hinv as (Hnd & Hsub & Hdone & Hinit & HC);
    pose proof (completed_bound C HC) as Hbound;
    destruct (Nat.ltb_spec (size C) (length (steps wf))) as [Hlt|Hge].
  1: lia.
  2: destruct (wave_step R C w Hinv Hlt)
       as (Hne & w' & outs & R' & Hg & Hp & Hinv' & Hgrow);
     destruct (ready_steps wf C) as [|s0 ready0] eqn:Hready; [done|];
     rewrite Hg, Hp; apply IH; [done | lia | lia].
  all: exists w, R; split_and!; try done.
  all: intros s Hs; apply Hdone; [done|].
  all: assert (C = list_to_set (step_id <$> steps wf)) as ->
         by (apply set_subseteq_size_eq;
             [done | rewrite size_list_to_set, length_fmap by done; lia]).
  all: by apply elem_of_list_to_set, list_elem_of_fmap_2.
Qed.

(** The parallel run returns the table, up to the order of insertion. *)
Lemma parallel_results fuel :
  (length (steps wf) < fuel)%nat ->
  exists w' R',
    _execute_parallel fuel wf ctx w0 = Some (w', inr R') /\ R' ≡ₚ table.
Proof.
  intros Hfuel.
  destruct (parallel_loop_completes (length (steps wf)) fuel [] ∅ w0)
    as (w' & R' & Hrun & Hnd & Hsub & Hall); [|lia|lia|].
  { split_and!; cbn; try done.
    - constructor.
    - intros x Hx. inversion Hx.
    - intros s _. rewrite elem_of_nil. set_solver. }
  exists w', R'. split; [exact Hrun|].
  apply NoDup_Permutation.
  - by eapply NoDup_fmap_1.
  - eapply NoDup_fmap_1. apply table_NoDup.
  - intros [a r]. split; [by apply Hsub|]. intros Hin.
    destruct (table_owner a r Hin) as (i & s & Hs & _ & -> & _).
    pose proof (Hall s (list_elem_of_lookup_2 _ _ _ Hs)) as Hkey.
    apply list_elem_of_fmap in Hkey as ([a' r'] & Ha' & Hin'). cbn in Ha'. subst a'.
    by rewrite (dict_entry_unique table _ r r' table_NoDup Hin (Hsub _ Hin')).
Qed.
End agreement.

(** ** Aggregation is insensitive to the order of insertion *)

Lemma filter_Permutation {A} (p : A -> bool) (l1 l2 : list A) :
  l1 ≡ₚ l2 -> List.filter p l1 ≡ₚ List.filter p l2.
Proof.
  induction 1 as [|x l1 l2 _ IH|x y l|l1 l2 l3 _ IH1 _ IH2]; cbn.
  - done.
  - destruct (p x); [by constructor | done].
  - destruct (p x), (p y); try done. apply perm_swap.
  - by etrans.
Qed.

Lemma sumQ_from (l : list Q) (a : Q) : (fold_left Qplus l a == a + sumQ l)%Q.
Proof.
  unfold sumQ. revert a. induction l as [|x l IH]; intros a; cbn [fold_left].
  - ring.
  - rewrite (IH (a + x)%Q), (IH (0 + x)%Q). ring.
Qed.

Lemma sumQ_cons (x : Q) (l : list Q) : (sumQ (x :: l) == x + sumQ l)%Q.
Proof. unfold sumQ at 1. cbn [fold_left]. rewrite sumQ_from. ring. Qed.

Lemma sumQ_Permutation (l1 l2 : list Q) : l1 ≡ₚ l2 -> (sumQ l1 == sumQ l2)%Q.
Proof.
  induction 1 as [|x l1 l2 _ IH|x y l|l1 l2 l3 _ IH1 _ IH2].
  - reflexivity.
  - by rewrite !sumQ_cons, IH.
  - rewrite !sumQ_cons. ring.
  - by rewrite IH1.
Qed.

Lemma success_confidences_Permutation (R1 R2 : list (string * AgentResult)) :
  R1 ≡ₚ R2 -> success_confidences R1 ≡ₚ success_confidences R2.
Proof.
  intros H. unfold success_confidences, dict_values.
  apply Permutation_map, filter_Permutation. by rewrite H.
Qed.

Lemma mean_confidence_Permutation (R1 R2 : list (string * AgentResult)) :
  R1 ≡ₚ R2 -> (mean_confidence R1 == mean_confidence R2)%Q.
Proof.
  intros H%success_confidences_Permutation. unfold mean_confidence.
  pose proof (Permutation_length H) as Hlen.
  pose proof (sumQ_Permutation _ _ H) as Hsum.
  destruct (success_confidences R1), (success_confidences R2);
    try discriminate Hlen; [reflexivity|].
  by rewrite Hsum, Hlen.
Qed.

Lemma collect_errors_Permutation (R1 R2 : list (string * AgentResult)) :
  R1 ≡ₚ R2 -> collect_errors R1 ≡ₚ collect_errors R2.
Proof.
  intros H. unfold collect_errors, dict_values.
  apply Permutation_map, filter_Permutation. by rewrite H.
Qed.


Lemma pipeline_deps_respected : deps_respected pipeline_steps.
Proof.
  intros l1 s l2 Heq d Hd. unfold pipeline_steps in Heq.
  destruct l1 as [|s1 [|s2 [|s3 [|s4 l1]]]]; cbn in Heq; simplify_eq;
    cbn in *; solve [inversion Hd | exact Hd].
Qed.

Lemma pipeline_first_attempt_success :
  first_attempt_success pipeline_steps ∅ [] pipeline_world.
Proof.
  cbn [first_attempt_success pipeline_steps].
  repeat (eexists _, _; split_and!;
          [vm_compute; reflexivity | reflexivity | reflexivity
           | vm_compute; reflexivity | ]).
  exact I.
Qed.


Lemma crossing_deps_respected : deps_respected crossing_steps.
Proof.
  intros l1 s l2 Heq d Hd. unfold crossing_steps in Heq.
  destruct l1 as [|s1 [|s2 [|s3 [|s4 l1]]]]; cbn in Heq; simplify_eq;
    cbn in *; solve [inversion Hd | exact Hd].
Qed.


(* ===================================================================== *)
(** * Execution history                                                   *)
(* ===================================================================== *)

Lemma slice_from_suffix {A} (start : Z) (l : list A) : slice_from start l `suffix_of` l.
Proof. unfold slice_from. apply suffix_drop. Qed.

(** X1.  [get_execution_history limit] returns a suffix of the recorded
    runs: for a positive [limit] the last [limit] of them (all when there
    are fewer); for [limit = 0] every recorded run, because the slice
    [[-0:]] starts at the front; for a negative [limit] all but the first
    [-limit]. *)
Theorem X1_get_execution_history_slice limit w :
  let h := execution_history w in
  get_execution_history limit w
  = drop (if (0 <? limit)%Z then length h - Z.to_nat limit
          else Z.to_nat (- limit)) h
  /\ get_execution_history limit w `suffix_of` h
  /\ length (get_execution_history limit w)
     = (if (0 <? limit)%Z then Nat.min (Z.to_nat limit) (length h)
        else length h - Z.to_nat (- limit))%nat
  /\ (limit = 0 -> get_execution_history limit w = h).
Proof.
  cbv zeta. unfold get_execution_history.
  assert (slice_from (- limit) (execution_history w)
          = drop (if (0 <? limit)%Z
                  then length (execution_history w) - Z.to_nat limit
                  else Z.to_nat (- limit)) (execution_history w)) as Heq.
  { unfold slice_from.
    destruct (Z.ltb_spec 0 limit), (Z.ltb_spec (- limit) 0); try lia.
    - f_equal. lia.
    - destruct (Z.min_spec (- limit) (Z.of_nat (length (execution_history w))))
        as [[? ->]|[? ->]]; [reflexivity|].
      rewrite !drop_ge by lia. reflexivity. }
  split; [exact Heq|]. split; [apply slice_from_suffix|].
  split.
  - rewrite Heq, length_drop. destruct (0 <? limit)%Z; lia.
  - intros ->. rewrite Heq. reflexivity.
Qed.

(* ===================================================================== *)
(** * AgentMemory                                                         *)
(* ===================================================================== *)

Lemma store_short_term_window data m :
  (length (short_term m) <= Z.to_nat (max_size m))%nat ->
  short_term (store_short_term data m)
  = drop (length (short_term m ++ [data]) - Z.to_nat (max_size m))
         (short_term m ++ [data]).
Proof.
  intros Hlen. unfold store_short_term. cbn [short_term].
  rewrite length_app. cbn [length].
  destruct (Z.gtb_spec (Z.of_nat (length (short_term m) + 1)) (max_size m)).
  - replace (length (short_term m) + 1 - Z.to_nat (max_size m))%nat with 1%nat
      by lia.
    by destruct (short_term m ++ [data]).
  - replace (length (short_term m) + 1 - Z.to_nat (max_size m))%nat with 0%nat
      by lia.
    reflexivity.
Qed.

Lemma short_term_after_stores items m :
  (length (short_term m) <= Z.to_nat (max_size m))%nat ->
  let m' := fold_left (fun m data => store_short_term data m) items m in
  short_term m'
  = drop (length (short_term m ++ items) - Z.to_nat (max_size m))
         (short_term m ++ items)
  /\ (length (short_term m') <= Z.to_nat (max_size m))%nat
  /\ max_size m' = max_size m
  /\ long_term m' = long_term m.
Proof.
  intros Hlen. cbv zeta.
  induction items as [|data items IH] using rev_ind.
  { cbn. rewrite app_nil_r. split_and!; try done.
    replace (length (short_term m) - Z.to_nat (max_size m))%nat with 0%nat by lia.
    reflexivity. }
  rewrite fold_left_app. cbn [fold_left].
  destruct IH as (Hst & Hle & Hmax & Hlt).
  set (m1 := fold_left _ items m) in *.
  assert (short_term (store_short_term data m1)
          = drop (length (short_term m ++ items ++ [data]) - Z.to_nat (max_size m))
                 (short_term m ++ items ++ [data])) as Hnew.
  { rewrite store_short_term_window by (rewrite Hmax; exact Hle).
    rewrite Hmax, Hst. rewrite (app_assoc (short_term m)).
    set (all := short_term m ++ items). set (M := Z.to_nat (max_size m)).
    rewrite !length_app, length_drop. cbn [length].
    destruct (decide (length all <= M)%nat) as [Hs|Hb].
    - replace (length all - M)%nat with 0%nat by lia.
      rewrite Nat.sub_0_r, drop_0. reflexivity.
    - replace (length all - (length all - M) + 1 - M)%nat with 1%nat by lia.
      replace (length all + 1 - M)%nat with ((length all - M) + 1)%nat by lia.
      rewrite <- (drop_drop _ 1 (length all - M)).
      rewrite (drop_app_le all) by lia. reflexivity. }
  split_and!; [exact Hnew | | exact Hmax | exact Hlt].
  rewrite Hnew, length_drop. lia.
Qed.

(** X2.  The short-term memory is a sliding window: after any sequence of
    [store_short_term] calls on a memory that is within its [max_size], it
    holds the last [max_size] items stored (older ones are dropped from
    the front, the order is kept) and never more than [max_size];
    [search_short_term] returns the items of that window that pass the
    filter, in order; and [retrieve] finds what it found before. *)
Theorem X2_short_term_window items m :
  (length (short_term m) <= Z.to_nat (max_size m))%nat ->
  let m' := fold_left (fun m data => store_short_term data m) items m in
  let window := drop (length (short_term m ++ items) - Z.to_nat (max_size m))
                     (short_term m ++ items) in
  short_term m' = window
  /\ (length (short_term m') <= Z.to_nat (max_size m))%nat
  /\ max_size m' = max_size m
  /\ (forall filter_fn,
        search_short_term filter_fn m' = List.filter filter_fn window)
  /\ (forall key, retrieve key m' = retrieve key m).
Proof.
  intros Hlen. cbv zeta.
  destruct (short_term_after_stores items m Hlen) as (Hst & Hle & Hmax & Hlt).
  unfold search_short_term, retrieve. rewrite Hst, Hlt.
  split_and!; try done. by rewrite <- Hst.
Qed.

Lemma X2_short_term_window_witness :
  let m' := fold_left (fun m data => store_short_term data m)
              [{[ "n" := PyInt 1 ]}; {[ "n" := PyInt 2 ]}; {[ "n" := PyInt 3 ]}]
              (new_memory 2) in
  let window : list (gmap string pyval) :=
    [{[ "n" := PyInt 2 ]}; {[ "n" := PyInt 3 ]}] in
  short_term m' = window
  /\ (length (short_term m') <= 2)%nat
  /\ max_size m' = 2
  /\ (forall filter_fn,
        search_short_term filter_fn m' = List.filter filter_fn window)
  /\ (forall key, retrieve key m' = retrieve key (new_memory 2)).
Proof.
  refine (X2_short_term_window
            [{[ "n" := PyInt 1 ]}; {[ "n" := PyInt 2 ]}; {[ "n" := PyInt 3 ]}]
            (new_memory 2) _).
  cbn. lia.
Defined.


(* ===================================================================== *)
(** * Status reports and reset                                            *)
(* ===================================================================== *)

Lemma count_successes_le history : (count_successes history <= length history)%nat.
Proof.
  unfold count_successes. induction history as [|r h IH]; cbn; [lia|].
  destruct (is_success r); cbn; lia.
Qed.

Lemma count_successes_all history :
  count_successes history = length history
  <-> Forall (fun r => res_status r = SUCCESS) history.
Proof.
  unfold count_successes. induction history as [|r h IH]; cbn.
  - split; [constructor|done].
  - pose proof (count_successes_le h) as Hle. unfold count_successes in Hle.
    unfold is_success at 1. case_bool_decide as Hr; cbn; rewrite Forall_cons.
    + rewrite <- IH. split; [intros [= ?]; auto | intros [_ ->]; done].
    + split; [lia | tauto].
Qed.

Lemma ratio_bounds (n m : nat) :
  (n <= m)%nat -> (0 < m)%nat ->
  (0 <= inject_Z (Z.of_nat n) / inject_Z (Z.of_nat m)
   /\ inject_Z (Z.of_nat n) / inject_Z (Z.of_nat m) <= 1)%Q.
Proof.
  intros Hnm Hm.
  assert (0 < inject_Z (Z.of_nat m))%Q as Hpos.
  { change 0%Q with (inject_Z 0). rewrite <- Zlt_Qlt. lia. }
  split.
  - apply Qle_shift_div_l; [exact Hpos|]. rewrite Qmult_0_l.
    change 0%Q with (inject_Z 0). rewrite <- Zle_Qle. lia.
  - apply Qle_shift_div_r; [exact Hpos|]. rewrite Qmult_1_l.
    rewrite <- Zle_Qle. lia.
Qed.

(** X4.  The success rate an agent reports lies between 0 and 1; it is 0
    for an agent without history, and it equals 1 exactly when the
    history is non-empty and every recorded result is SUCCESS. *)
Theorem X4_success_rate_range self :
  (0 <= _calculate_success_rate self /\ _calculate_success_rate self <= 1)%Q
  /\ (task_history self = [] -> _calculate_success_rate self = 0%Q)
  /\ ((_calculate_success_rate self == 1)%Q
      <-> task_history self <> []
          /\ Forall (fun r => res_status r = SUCCESS) (task_history self)).
Proof.
  unfold _calculate_success_rate.
  destruct (task_history self) as [|r h] eqn:Hh.
  { split_and!; [done | done | done |]. split; [discriminate | tauto]. }
  pose proof (count_successes_le (r :: h)) as Hle.
  assert (0 < length (r :: h))%nat as Hpos by (cbn; lia).
  split; [by apply ratio_bounds|]. split; [discriminate|].
  rewrite <- count_successes_all.
  assert (~ inject_Z (Z.of_nat (length (r :: h))) == 0)%Q as Hnz.
  { change 0%Q with (inject_Z 0). rewrite inject_Z_injective. lia. }
  split.
  - intros Heq. split; [discriminate|].
    assert (inject_Z (Z.of_nat (count_successes (r :: h)))
            == inject_Z (Z.of_nat (length (r :: h))))%Q as Hq.
    { transitivity (inject_Z (Z.of_nat (count_successes (r :: h)))
                    / inject_Z (Z.of_nat (length (r :: h)))
                    * inject_Z (Z.of_nat (length (r :: h))))%Q;
        [field; exact Hnz | rewrite Heq; ring]. }
    rewrite inject_Z_injective in Hq. by apply Nat2Z.inj in Hq.
  - intros [_ ->]. field. exact Hnz.
Qed.

(** What [process_task] leaves of the agent is its status and history. *)
Lemma process_task_reset self task start :
  reset (process_task self task start).1.1.1 = reset self.
Proof. worker_cases; reflexivity. Qed.

(** X5.  [reset] brings an agent back to the state in which it was
    constructed, whatever [process_task] calls came before: resetting
    after a call gives the same agent as resetting before it, and the
    report of a reset agent shows status "idle", no completed task and
    rates 0, with identity and capabilities kept. *)
Theorem X5_reset_after_process_task self task start :
  let after := (process_task self task start).1.1.1 in
  reset after = reset self
  /\ reset (reset self) = reset self
  /\ get_status (reset after)
     = {| report_agent_id := agent_id self;
          report_agent_name := agent_name self;
          report_status := "idle";
          report_capabilities := capabilities self;
          tasks_completed := 0;
          success_rate := 0%Q;
          average_execution_time := 0%Q |}.
Proof.
  cbv zeta. rewrite process_task_reset. split_and!; reflexivity.
Qed.

(** X6.  Every call of [process_task] counts as one completed task in the
    agent's report, whether it succeeded or not; the reported status is
    then "success", "failed" or "timeout"; and the number of recorded
    successes grows by one exactly when the returned result is SUCCESS. *)
Theorem X6_report_after_process_task self task start :
  let '(after, r, _, _) := process_task self task start in
  tasks_completed (get_status after) = S (tasks_completed (get_status self))
  /\ (report_status (get_status after) = "success"
      \/ report_status (get_status after) = "failed"
      \/ report_status (get_status after) = "timeout")
  /\ count_successes (task_history after)
     = (count_successes (task_history self)
        + if bool_decide (res_status r = SUCCESS) then 1 else 0)%nat.
Proof.
  pose proof (process_task_records self task start) as Hrec.
  assert (status (process_task self task start).1.1.1 = SUCCESS
          \/ status (process_task self task start).1.1.1 = FAILED
          \/ status (process_task self task start).1.1.1 = TIMEOUT) as Hst.
  { worker_cases; auto. }
  destruct (process_task self task start) as [[[after r] fin] evs].
  cbn [fst] in Hst. split_and!.
  - cbn. rewrite Hrec, length_app. cbn. lia.
  - cbn. destruct Hst as [-> | [-> | ->]]; auto.
  - rewrite Hrec. unfold count_successes.
    rewrite List.filter_app, length_app. cbn. unfold is_success at 2.
    destruct (bool_decide (res_status r = SUCCESS)); reflexivity.
Qed.

(** X7.  The two status queries agree: [get_all_agent_status] has an
    entry exactly for the registered ids, and each entry is what
    [get_agent_status] returns for that id; an unregistered id gives
    [None]. *)
Theorem X7_status_queries_agree id w :
  get_all_agent_status w !! id = get_agent_status id w
  /\ dom (get_all_agent_status w) = dom (agents w)
  /\ (get_agent_status id w = None <-> agents w !! id = None)
  /\ (forall agent, get_agent_status id (register_agent agent w)
        = if decide (agent_id agent = id) then Some (get_status agent)
          else get_agent_status id w).
Proof.
  unfold get_all_agent_status, get_agent_status. split_and!.
  - apply lookup_fmap.
  - apply dom_fmap_L.
  - apply fmap_None.
  - intros agent. cbn. rewrite lookup_insert. by case_decide.
Qed.

(* ===================================================================== *)
(** * What every run preserves                                            *)
(* ===================================================================== *)

Section run_invariant.
Context (I : BaseAgent -> Prop) (P : AgentResult -> Prop).
Hypothesis attempt_ok :
  forall agent task start,
    I agent ->
    I (process_task agent task start).1.1.1
    /\ P (process_task agent task start).1.1.2.

Lemma run_keeps_refl w : all_agents I w -> run_keeps I w w.
Proof. by intros ?; split_and!. Qed.

Lemma run_keeps_trans w1 w2 w3 :
  run_keeps I w1 w2 -> run_keeps I w2 w3 -> run_keeps I w1 w3.
Proof.
  intros (H1 & H2 & H3 & _) (H4 & H5 & H6 & ?).
  split_and!; [congruence | congruence | congruence | done].
Qed.

Lemma call_process_task_keeps key agent task w :
  all_agents I w -> key ∈ dom (agents w) -> I agent ->
  let '(w', agent', r) := call_process_task key agent task w in
  run_keeps I w w' /\ key ∈ dom (agents w') /\ I agent' /\ P r.
Proof.
  intros Hall Hkey Hagent. unfold call_process_task.
  destruct (attempt_ok agent task (now w) Hagent) as [HI HP].
  destruct (process_task agent task (now w)) as [[[agent' r] fin] evs].
  cbn in HI, HP.
  assert (dom (<[key := agent']> (agents w)) = dom (agents w)) as Hdom.
  { rewrite dom_insert_L. set_solver. }
  unfold run_keeps, all_agents. cbn [agents workflows execution_history].
  rewrite Hdom. split_and!; try done.
  by apply map_Forall_insert_2.
Qed.

Lemma sleep_keeps seconds w : all_agents I w -> run_keeps I w (sleep seconds w).
Proof. by intros ?; split_and!. Qed.

Lemma retry_loop_keeps step key task n :
  forall agent retries last w,
    all_agents I w -> key ∈ dom (agents w) -> I agent ->
    (forall r0, last = Some r0 -> P r0) ->
    let '(w', out) := retry_loop n step key agent task retries last w in
    run_keeps I w w' /\ forall r, out = inr r -> P r.
Proof.
  induction n as [|n IH]; intros agent retries last w Hall Hkey Hagent Hlast.
  { cbn. destruct last as [r0|]; (split; [by apply run_keeps_refl|]).
    - intros r [= <-]. by apply Hlast.
    - discriminate. }
  rewrite retry_loop_S.
  pose proof (call_process_task_keeps key agent task w Hall Hkey Hagent) as Hcall.
  destruct (call_process_task key agent task w) as [[w1 a1] r1].
  destruct Hcall as (Hk1 & Hkey1 & Ha1 & Hr1).
  destruct (decide (res_status r1 = SUCCESS));
    [split; [done | by intros r [= <-]]|].
  destruct (negb (retry_on_failure step));
    [split; [done | by intros r [= <-]]|].
  set (w2 := if retries + 1 <=? max_retries step
             then sleep (2 ^ (retries + 1)) w1 else w1).
  assert (run_keeps I w1 w2) as Hk2.
  { unfold w2. destruct (retries + 1 <=? max_retries step);
      [apply sleep_keeps | apply run_keeps_refl]; apply Hk1. }
  specialize (IH a1 (retries + 1) (Some r1) w2).
  destruct (retry_loop n step key a1 task (retries + 1) (Some r1) w2)
    as [w' out].
  destruct IH as [Hk3 Hout]; [apply Hk2 | | done | by intros r0 [= <-] |].
  { destruct Hk2 as (_ & _ & -> & _). exact Hkey1. }
  split; [|exact Hout].
  eapply run_keeps_trans; [exact Hk1|]. eapply run_keeps_trans; done.
Qed.

Lemma _execute_step_keeps step ctx prev w :
  all_agents I w ->
  let '(w', out) := _execute_step step ctx prev w in
  run_keeps I w w' /\ forall r, out = inr r -> P r.
Proof.
  intros Hall. unfold _execute_step.
  destruct (agents w !! step_agent_id step) as [agent|] eqn:Hag.
  - apply retry_loop_keeps; [done | by apply elem_of_dom | | done].
    by apply (Hall _ _ Hag).
  - split; [by apply run_keeps_refl | discriminate].
Qed.

Lemma gather_steps_keeps ctx prev ready :
  forall w,
    all_agents I w ->
    let '(w', outs) := gather_steps ready ctx prev w in
    run_keeps I w w' /\ Forall (fun out => forall r, out = inr r -> P r) outs.
Proof.
  induction ready as [|s ready IH]; intros w Hall; cbn [gather_steps].
  { split; [by apply run_keeps_refl | constructor]. }
  pose proof (_execute_step_keeps s ctx prev w Hall) as Hs.
  destruct (_execute_step s ctx prev w) as [w1 out]. destruct Hs as [Hk1 Hout].
  specialize (IH w1). destruct (gather_steps ready ctx prev w1) as [w' outs].
  destruct IH as [Hk2 Houts]; [apply Hk1|].
  split; [by eapply run_keeps_trans | by constructor].
Qed.

Lemma dict_set_Forall (Q : string * AgentResult -> Prop) k r d :
  Q (k, r) -> Forall Q d -> Forall Q (dict_set k r d).
Proof.
  rewrite !Forall_forall. intros Hr Hd x Hx.
  apply dict_set_elem in Hx as [->|Hx]; auto.
Qed.

Lemma process_results_keeps ready :
  forall outs R C R' C',
    Forall (fun out => forall r, out = inr r -> P r) outs ->
    Forall (fun item => P item.2) R ->
    process_results (zip ready outs) R C = inr (R', C') ->
    Forall (fun item => P item.2) R'.
Proof.
  induction ready as [|s ready IH]; intros outs R C R' C' Houts HR Hrun.
  { cbn in Hrun. by injection Hrun as <- <-. }
  destruct outs as [|out outs]; [cbn in Hrun; by injection Hrun as <- <-|].
  apply Forall_cons in Houts as [Hout Houts]. cbn in Hrun.
  destruct out as [e|r].
  - destruct (negb (optional s)); [discriminate|]. by eapply IH.
  - eapply IH; [exact Houts | | exact Hrun].
    apply dict_set_Forall; [by apply Hout | done].
Qed.

Lemma parallel_loop_keeps wf ctx fuel :
  forall R C w w' out,
    all_agents I w ->
    Forall (fun item => P item.2) R ->
    parallel_loop fuel wf ctx R C w = Some (w', out) ->
    run_keeps I w w'
    /\ forall R', out = inr R' -> Forall (fun item => P item.2) R'.
Proof.
  induction fuel as [|fuel IH]; intros R C w w' out Hall HR Hrun;
    [discriminate|].
  cbn [parallel_loop] in Hrun.
  destruct (size C <? length (steps wf))%nat.
  2:{ injection Hrun as <- <-. split; [by apply run_keeps_refl|].
      by intros ? [= <-]. }
  destruct (ready_steps wf C) as [|s0 ready0] eqn:Hready.
  { injection Hrun as <- <-. split; [by apply run_keeps_refl|].
    by intros ? [= <-]. }
  pose proof (gather_steps_keeps ctx R (s0 :: ready0) w Hall) as Hg.
  destruct (gather_steps (s0 :: ready0) ctx R w) as [w1 outs].
  destruct Hg as [Hk1 Houts].
  destruct (process_results (zip (s0 :: ready0) outs) R C)
    as [e|[R1 C1]] eqn:Hp.
  { injection Hrun as <- <-. split; [done | discriminate]. }
  destruct (IH R1 C1 w1 w' out) as [Hk2 Hout]; [apply Hk1 | | done |].
  { by eapply process_results_keeps. }
  split; [by eapply run_keeps_trans | done].
Qed.

Lemma sequential_loop_keeps ctx todo :
  forall R w,
    all_agents I w ->
    Forall (fun item => P item.2) R ->
    let '(w', out) := sequential_loop todo ctx R w in
    run_keeps I w w'
    /\ forall R', out = inr R' -> Forall (fun item => P item.2) R'.
Proof.
  induction todo as [|s todo IH]; intros R w Hall HR; cbn [sequential_loop].
  { split; [by apply run_keeps_refl | by intros ? [= <-]]. }
  pose proof (_execute_step_keeps s ctx R w Hall) as Hs.
  destruct (_execute_step s ctx R w) as [w1 [e|r]]; destruct Hs as [Hk1 Hout].
  { split; [done | discriminate]. }
  destruct (bool_decide (res_status r = FAILED) && negb (optional s)).
  { split; [done | discriminate]. }
  specialize (IH (dict_set (step_agent_id s) r R) w1).
  destruct (sequential_loop todo ctx _ w1) as [w' out].
  destruct IH as [Hk2 Hout2]; [apply Hk1 | |].
  { apply dict_set_Forall; [by apply Hout | done]. }
  split; [by eapply run_keeps_trans | done].
Qed.

Lemma run_steps_keeps fuel wf ctx w w' out :
  all_agents I w ->
  run_steps fuel wf ctx w = Some (w', out) ->
  run_keeps I w w'
  /\ forall R', out = inr R' -> Forall (fun item => P item.2) R'.
Proof.
  intros Hall. unfold run_steps, _execute_parallel, _execute_sequential.
  destruct (parallel_execution wf).
  - by apply parallel_loop_keeps.
  - pose proof (sequential_loop_keeps ctx (steps wf) [] w Hall (Forall_nil_2 _)) as Hs.
    destruct (sequential_loop (steps wf) ctx [] w) as [w1 out1].
    by intros [= <- <-].
Qed.

Lemma execute_workflow_keeps fuel id ctx w w' res :
  all_agents I w ->
  execute_workflow fuel id ctx w = Some (w', inr res) ->
  workflows w' = workflows w
  /\ dom (agents w') = dom (agents w)
  /\ all_agents I w'
  /\ execution_history w' = execution_history w ++ [res]
  /\ or_workflow_id res = id
  /\ Forall (fun item => P item.2) (agent_results res).
Proof.
  intros Hall. unfold execute_workflow.
  destruct (workflows w !! id) as [wf|]; [|discriminate].
  destruct (run_steps fuel wf ctx w) as [[w1 ran]|] eqn:Hrun; [|discriminate].
  destruct (run_steps_keeps fuel wf ctx w w1 ran Hall Hrun)
    as ((Hwf & Hh & Hdom & Hall1) & Hres).
  destruct ran as [e|R]; cbn; intros [= <- <-]; cbn;
    rewrite ?Hh; split_and!; auto.
Qed.
End run_invariant.

Lemma slice_from_last {A} (l : list A) (x : A) : slice_from (- 1) (l ++ [x]) = [x].
Proof.
  unfold slice_from. rewrite length_app. cbn [length Z.ltb Z.opp Z.compare].
  rewrite Z.max_l by lia.
  replace (Z.to_nat (-1 + Z.of_nat (length l + 1))) with (length l) by lia.
  by rewrite drop_app_length.
Qed.



(* ===================================================================== *)
(** * The range of the overall confidence                                 *)
(* ===================================================================== *)

Lemma sumQ_range (l : list Q) :
  Forall (fun c => 0 <= c /\ c <= 1)%Q l ->
  (0 <= sumQ l /\ sumQ l <= inject_Z (Z.of_nat (length l)))%Q.
Proof.
  induction 1 as [|c l [Hc0 Hc1] _ [IH0 IH1]].
  - cbn. split; apply Qle_refl.
  - rewrite sumQ_cons. cbn [length].
    rewrite Nat2Z.inj_succ, <- Z.add_1_l, inject_Z_plus.
    split.
    + rewrite <- (Qplus_0_l 0). by apply Qplus_le_compat.
    + by apply Qplus_le_compat.
Qed.

Lemma mean_confidence_range (R : list (string * AgentResult)) :
  Forall (fun item => confidence_in_range item.2) R ->
  (0 <= mean_confidence R /\ mean_confidence R <= 1)%Q.
Proof.
  intros HR. unfold mean_confidence.
  assert (Forall (fun c => 0 <= c /\ c <= 1)%Q (success_confidences R)) as Hc.
  { unfold success_confidences, dict_values.
    rewrite Forall_forall in HR. apply Forall_forall.
    intros c Hin%list_elem_of_In%in_map_iff. destruct Hin as (r & <- & Hr).
    apply filter_In in Hr as [Hr%list_elem_of_In _].
    apply list_elem_of_fmap in Hr as (item & -> & Hitem). by apply HR. }
  apply sumQ_range in Hc as [H0 H1].
  destruct (success_confidences R) as [|c l] eqn:Hs; [done|].
  assert (0 < inject_Z (Z.of_nat (length (c :: l))))%Q as Hpos.
  { change 0%Q with (inject_Z 0). rewrite <- Zlt_Qlt. cbn [length]. lia. }
  split.
  - apply Qle_shift_div_l; [exact Hpos|]. by rewrite Qmult_0_l.
  - apply Qle_shift_div_r; [exact Hpos|]. by rewrite Qmult_1_l.
Qed.

Lemma process_task_valid_confidence agent task start :
  returns_valid_confidence agent ->
  returns_valid_confidence (process_task agent task start).1.1.1
  /\ confidence_in_range (process_task agent task start).1.1.2.
Proof.
  intros Hagent.
  pose proof (process_task_keeps_methods agent task start) as (_ & Hx & _).
  split.
  - unfold returns_valid_confidence. rewrite Hx. exact Hagent.
  - clear Hx. unfold process_task.
    cbn [validate_input execute set_status task_history agent_id].
    destruct (validate_input agent (task_history agent) task) as [[|]|[]];
      try (cbn; split; done).
    destruct (execute agent (task_history agent) task) as [took [r|[]]] eqn:He;
      try (cbn; split; done).
    cbn. exact (Hagent _ _ _ _ He).
Qed.

(** X9.  When every registered worker returns results whose confidence
    lies in [[0, 1]], a completed run reports an [overall_confidence] in
    [[0, 1]], every stored result has its confidence in that range (the
    results built for failures and timeouts carry 0), and the workers
    still have the property afterwards. *)
Theorem X9_overall_confidence_range fuel id ctx w w' res :
  all_agents returns_valid_confidence w ->
  execute_workflow fuel id ctx w = Some (w', inr res) ->
  (0 <= overall_confidence res /\ overall_confidence res <= 1)%Q
  /\ Forall (fun item => confidence_in_range item.2) (agent_results res)
  /\ all_agents returns_valid_confidence w'.
Proof.
  intros Hall Hrun.
  destruct (execute_workflow_keeps returns_valid_confidence confidence_in_range
              process_task_valid_confidence fuel id ctx w w' res Hall Hrun)
    as (_ & _ & Hall' & _ & _ & Hres).
  split; [|split; [exact Hres | exact Hall']].
  unfold execute_workflow in Hrun.
  destruct (workflows w !! id) as [wf|]; [|discriminate].
  destruct (run_steps fuel wf ctx w) as [[w1 ran]|]; [|discriminate].
  destruct ran as [e|R]; cbn in Hrun; injection Hrun as _ <-; cbn in *.
  - done.
  - by apply mean_confidence_range.
Qed.

Lemma reliable_valid_confidence id c took :
  (0 <= c /\ c <= 1)%Q -> returns_valid_confidence (reliable id c took).
Proof. intros Hc history task took' r [= _ <-]. exact Hc. Qed.

Lemma pipeline_world_valid : all_agents returns_valid_confidence pipeline_world.
Proof.
  unfold all_agents, pipeline_world, world_of. cbn.
  repeat (apply map_Forall_insert_2;
          [apply reliable_valid_confidence; split; discriminate|]).
  apply map_Forall_empty.
Qed.

Lemma X9_overall_confidence_range_witness :
  match execute_workflow 4 "par" ∅ pipeline_world with
  | Some (w', inr res) =>
      (0 <= overall_confidence res /\ overall_confidence res <= 1)%Q
      /\ Forall (fun item => confidence_in_range item.2) (agent_results res)
      /\ all_agents returns_valid_confidence w'
  | _ => False
  end.
Proof.
  destruct (execute_workflow 4 "par" ∅ pipeline_world) as [[w' [e|res]]|] eqn:E.
  - vm_compute in E. discriminate E.
  - exact (X9_overall_confidence_range 4 "par" ∅ pipeline_world w' res
             pipeline_world_valid E).
  - vm_compute in E. discriminate E.
Defined.

(* ===================================================================== *)
(** * Termination of the parallel loop                                    *)
(* ===================================================================== *)

Lemma dispatched_app tr1 tr2 : dispatched (tr1 ++ tr2) = dispatched tr1 ++ dispatched tr2.
Proof. unfold dispatched. apply omap_app. Qed.

Lemma _execute_step_returns step ctx prev w :
  runnable w step ->
  exists w' r k,
    _execute_step step ctx prev w = (w', inr r)
    /\ dom (agents w') = dom (agents w)
    /\ (k <= Z.to_nat (max_retries step))%nat
    /\ dispatched (trace w')
       = dispatched (trace w) ++ replicate (S k) (step_id step).
Proof.
  intros [Hreg Hn]. apply elem_of_dom in Hreg as [agent Hag].
  unfold _execute_step. rewrite Hag.
  replace (Z.to_nat (max_retries step + 1))
    with (S (Z.to_nat (max_retries step))) by lia.
  destruct (retry_loop_spec step (step_agent_id step)
              (build_task step ctx prev) (Z.to_nat (max_retries step))
              agent 0 None w)
    as (w' & fails & r & a' & -> & Hags & _ & _ & _ & Hk & _ & _ & _ & Hd); [lia|].
  exists w', r, (length fails). split_and!; [done | | done |].
  - rewrite Hags, dom_insert_L. apply elem_of_dom_2 in Hag. set_solver.
  - rewrite !dispatched_task_ids, Hd, fmap_app, fmap_replicate. reflexivity.
Qed.

Lemma gather_steps_return ctx prev ready :
  forall w,
    Forall (runnable w) ready ->
    exists w' outs,
      gather_steps ready ctx prev w = (w', outs)
      /\ Forall2 (fun (s : WorkflowStep) out => exists r : AgentResult, out = inr r)
                 ready outs
      /\ dom (agents w') = dom (agents w)
      /\ (forall id, id ∈ dispatched (trace w')
            <-> id ∈ dispatched (trace w) \/ id ∈ step_id <$> ready).
Proof.
  induction ready as [|s ready IH]; intros w Hrun.
  { exists w, []. split_and!; [done | constructor | done |].
    intros id. rewrite elem_of_nil. tauto. }
  apply Forall_cons in Hrun as [Hs Hrun].
  destruct (_execute_step_returns s ctx prev w Hs)
    as (w1 & r & k & Hstep & Hdom1 & _ & Hd1).
  destruct (IH w1) as (w' & outs & Hg & Hall & Hdom & Hd).
  { eapply Forall_impl; [exact Hrun|]. intros s' [? ?]. split; [|done].
    by rewrite Hdom1. }
  exists w', (inr r :: outs). split_and!.
  - cbn [gather_steps]. by rewrite Hstep, Hg.
  - constructor; eauto.
  - congruence.
  - intros id. rewrite Hd, Hd1, elem_of_app, elem_of_replicate.
    cbn [fmap list_fmap]. rewrite elem_of_cons. split; [tauto|].
    intros [?|[->|?]]; [tauto | | tauto].
    left. right. split; [done|lia].
Qed.

Lemma process_results_returned ready outs :
  Forall2 (fun (s : WorkflowStep) out => exists r : AgentResult, out = inr r)
          ready outs ->
  forall R C,
    exists R',
      process_results (zip ready outs) R C
      = inr (R', list_to_set (step_id <$> ready) ∪ C)
      /\ (NoDup R.*1 -> NoDup R'.*1)
      /\ (forall a, a ∈ R'.*1 <-> a ∈ R.*1 \/ a ∈ step_agent_id <$> ready).
Proof.
  induction 1 as [|s out ready outs (r & ->) _ IH]; intros R C.
  { exists R. cbn. split_and!; auto.
    - f_equal. f_equal. set_solver.
    - intros a. rewrite elem_of_nil. tauto. }
  destruct (IH (dict_set (step_agent_id s) r R) ({[step_id s]} ∪ C))
    as (R' & Hp & Hnd & Hk).
  exists R'. split_and!.
  - cbn. rewrite Hp. f_equal. f_equal. set_solver.
  - intros HR. by apply Hnd, dict_set_NoDup.
  - intros a. rewrite Hk, dict_set_keys. cbn. rewrite elem_of_cons. tauto.
Qed.

Lemma filter_length_lt {A} (p q : A -> bool) (l : list A) :
  (forall x, q x = true -> p x = true) ->
  (exists x, x ∈ l /\ p x = true /\ q x = false) ->
  (length (List.filter q l) < length (List.filter p l))%nat.
Proof.
  intros Hqp. assert (forall l', length (List.filter q l') <= length (List.filter p l'))%nat
    as Hle.
  { induction l' as [|y l' IH]; cbn; [lia|].
    destruct (q y) eqn:Hq; [rewrite (Hqp y Hq); cbn; lia|].
    destruct (p y); cbn; lia. }
  induction l as [|y l IH]; intros (x & Hin & Hp & Hq); [inversion Hin|].
  cbn. apply elem_of_cons in Hin as [<-|Hin].
  - rewrite Hp, Hq. cbn. specialize (Hle l). lia.
  - assert (length (List.filter q l) < length (List.filter p l))%nat by eauto.
    destruct (q y) eqn:Hqy; [rewrite (Hqp y Hqy); cbn; lia|].
    destruct (p y); cbn; lia.
Qed.

Lemma pending_shrinks wf (C : gset string) :
  ready_steps wf C <> [] ->
  (length (pending wf (list_to_set (step_id <$> ready_steps wf C) ∪ C))
   < length (pending wf C))%nat.
Proof.
  intros Hne. apply filter_length_lt.
  - intros s Hs%bool_decide_eq_true. apply bool_decide_eq_true. set_solver.
  - destruct (ready_steps wf C) as [|s ready] eqn:Hready; [done|].
    assert (s ∈ ready_steps wf C) as Hin by (rewrite Hready; left).
    apply elem_of_filter_bool in Hin as [HsL [Hout _]%andb_true_iff].
    exists s. split_and!; [done | done |].
    apply bool_decide_eq_false. cbn. set_solver.
Qed.

Lemma parallel_loop_terminates wf ctx m :
  forall fuel R C w,
    Forall (runnable w) (steps wf) ->
    NoDup R.*1 ->
    (forall a, a ∈ R.*1 -> a ∈ step_agent_id <$> steps wf) ->
    (NoDup (step_id <$> steps wf) ->
     forall s, s ∈ steps wf -> step_id s ∈ C ->
       step_agent_id s ∈ R.*1 /\ step_id s ∈ dispatched (trace w)) ->
    C ⊆ list_to_set (step_id <$> steps wf) ->
    (length (pending wf C) <= m)%nat ->
    (m < fuel)%nat ->
    exists w' R' C',
      parallel_loop fuel wf ctx R C w = Some (w', inr R')
      /\ dom (agents w') = dom (agents w)
      /\ NoDup R'.*1
      /\ (forall a, a ∈ R'.*1 -> a ∈ step_agent_id <$> steps wf)
      /\ (NoDup (step_id <$> steps wf) ->
          forall s, s ∈ steps wf -> step_id s ∈ C' ->
            step_agent_id s ∈ R'.*1 /\ step_id s ∈ dispatched (trace w'))
      /\ C' ⊆ list_to_set (step_id <$> steps wf)
      /\ ((length (steps wf) <= size C')%nat \/ ready_steps wf C' = []).
Proof.
  induction m as [|m IH]; intros fuel R C w Hrun Hnd Hkeys Hdone HC Hm Hfuel;
    (destruct fuel as [|fuel]; [lia|]); cbn [parallel_loop];
    (destruct (Nat.ltb_spec (size C) (length (steps wf))) as [Hlt|Hge];
     [|exists w, R, C; split_and!; auto]);
    (destruct (ready_steps wf C) as [|s0 ready0] eqn:Hready;
     [exists w, R, C; split_and!; auto|]);
    pose proof (pending_shrinks wf C) as Hshrink; rewrite Hready in Hshrink;
    specialize (Hshrink ltac:(done)); [lia|].
  assert (forall s, s ∈ s0 :: ready0 -> s ∈ steps wf) as Hsub.
  { intros s Hs. rewrite <- Hready in Hs.
    by apply elem_of_filter_bool in Hs as [? _]. }
  destruct (gather_steps_return ctx R (s0 :: ready0) w)
    as (w1 & outs & Hg & Hall & Hdom & Hd).
  { apply Forall_forall. intros s Hs. rewrite Forall_forall in Hrun.
    by apply Hrun, Hsub. }
  destruct (process_results_returned _ _ Hall R C) as (R1 & Hp & Hnd1 & Hk1).
  rewrite Hg, Hp.
  destruct (IH fuel R1 (list_to_set (step_id <$> s0 :: ready0) ∪ C) w1)
    as (w' & R' & C' & Hloop & Hdom' & Hrest); try lia.
  - eapply Forall_impl; [exact Hrun|]. intros s [? ?]. split; [|done].
    by rewrite Hdom.
  - by apply Hnd1.
  - intros a [Ha|Ha]%Hk1; [by apply Hkeys|].
    apply list_elem_of_fmap in Ha as (s & -> & Hs).
    by apply list_elem_of_fmap_2, Hsub.
  - intros Hids s Hs [Hin|Hin]%elem_of_union.
    + apply elem_of_list_to_set in Hin. split; [|apply Hd; by right].
      apply Hk1. right.
      apply list_elem_of_fmap in Hin as (s' & Heq & Hs').
      rewrite (NoDup_fmap_eq step_id (steps wf) s s' Hids Hs (Hsub _ Hs') Heq).
      by apply list_elem_of_fmap_2.
    + destruct (Hdone Hids s Hs Hin) as [? ?]. split; [apply Hk1; by left|].
      apply Hd. by left.
  - apply union_subseteq. split; [|done].
    intros id [s [-> Hs]]%elem_of_list_to_set%list_elem_of_fmap.
    by apply elem_of_list_to_set, list_elem_of_fmap_2, Hsub.
  - exists w', R', C'. split_and!; try apply Hrest; [done | congruence].
Qed.

Lemma pending_all wf : (length (pending wf ∅) <= length (steps wf))%nat.
Proof.
  unfold pending. induction (steps wf) as [|s l IH]; cbn; [lia|].
  destruct (bool_decide _); cbn; lia.
Qed.

Lemma loop_exit_all_completed wf (C : gset string) :
  NoDup (step_id <$> steps wf) ->
  deps_respected (steps wf) ->
  C ⊆ list_to_set (step_id <$> steps wf) ->
  (length (steps wf) <= size C)%nat \/ ready_steps wf C = [] ->
  forall s, s ∈ steps wf -> step_id s ∈ C.
Proof.
  intros Hids Horder HC [Hsize|Hstall] s Hs.
  - assert (C = list_to_set (step_id <$> steps wf)) as ->.
    { apply set_subseteq_size_eq; [done|].
      rewrite size_list_to_set, length_fmap by done. lia. }
    by apply elem_of_list_to_set, list_elem_of_fmap_2.
  - apply list_elem_of_lookup in Hs as [i Hi].
    by apply (stalled_all_completed wf Horder C Hstall i).
Qed.




(* ===================================================================== *)
(** * A parallel run that never ends                                      *)
(* ===================================================================== *)

Lemma _execute_step_unattempted step ctx prev w :
  raises_unattempted w step ->
  exists e, _execute_step step ctx prev w = (w, inl e).
Proof.
  intros Hbad. unfold _execute_step.
  destruct (agents w !! step_agent_id step) as [agent|] eqn:Hag; [|eauto].
  destruct Hbad as [Hnone|Hneg]; [congruence|].
  replace (Z.to_nat (max_retries step + 1)) with 0%nat by lia. cbn. eauto.
Qed.

Lemma gather_steps_unattempted ctx prev w ready :
  Forall (raises_unattempted w) ready ->
  exists outs,
    gather_steps ready ctx prev w = (w, outs)
    /\ Forall2 (fun (s : WorkflowStep) (out : exn + AgentResult) =>
                  exists e, out = inl e) ready outs.
Proof.
  induction 1 as [|s ready Hs _ (outs & Hg & Hall)].
  { exists []. split; [reflexivity | constructor]. }
  destruct (_execute_step_unattempted s ctx prev w Hs) as [e He].
  exists (inl e :: outs). cbn [gather_steps]. rewrite He, Hg.
  split; [done | constructor; eauto].
Qed.

Lemma process_results_swallowed ready outs R C :
  Forall (fun s => optional s = true) ready ->
  Forall2 (fun (s : WorkflowStep) (out : exn + AgentResult) =>
             exists e, out = inl e) ready outs ->
  process_results (zip ready outs) R C = inr (R, C).
Proof.
  intros Hopt Hall. induction Hall as [|s out ready outs (e & ->) _ IH];
    [reflexivity|].
  apply Forall_cons in Hopt as [Hs Hopt]. cbn. rewrite Hs. cbn. by apply IH.
Qed.

Lemma parallel_loop_stuck wf ctx R C w :
  (size C < length (steps wf))%nat ->
  ready_steps wf C <> [] ->
  Forall (fun s => optional s = true /\ raises_unattempted w s) (ready_steps wf C) ->
  forall fuel, parallel_loop fuel wf ctx R C w = None.
Proof.
  intros Hlt%Nat.ltb_lt Hne Hbad fuel.
  induction fuel as [|fuel IH]; [reflexivity|]. cbn [parallel_loop].
  rewrite Hlt. destruct (ready_steps wf C) as [|s0 ready0] eqn:Hready; [done|].
  destruct (gather_steps_unattempted ctx R w (s0 :: ready0)) as (outs & -> & Hall).
  { eapply Forall_impl; [exact Hbad|]. by intros s [_ ?]. }
  rewrite process_results_swallowed; [exact IH | | exact Hall].
  eapply Forall_impl; [exact Hbad|]. by intros s [? _].
Qed.

(** X11.  A parallel run does not end when its first wave is not empty
    and consists only of optional steps that raise before any attempt
    (worker not registered, or negative [max_retries]): the exception of
    an optional step is dropped without marking the step completed, so
    the same wave is computed again and again.  No amount of fuel makes
    [execute_workflow] return. *)
Theorem X11_optional_unattempted_steps_loop wf id ctx w :
  workflows w !! id = Some wf ->
  parallel_execution wf = true ->
  ready_steps wf ∅ <> [] ->
  Forall (fun s => optional s = true /\ raises_unattempted w s)
         (ready_steps wf ∅) ->
  forall fuel, execute_workflow fuel id ctx w = None.
Proof.
  intros Hwf Hpar Hne Hbad fuel.
  unfold execute_workflow, run_steps, _execute_parallel. rewrite Hwf, Hpar.
  rewrite parallel_loop_stuck; [reflexivity | | exact Hne | exact Hbad].
  rewrite size_empty. destruct (steps wf) as [|s l] eqn:Hs; [|cbn; lia].
  exfalso. apply Hne. unfold ready_steps. by rewrite Hs.
Qed.

Lemma X11_optional_unattempted_steps_loop_witness :
  ready_steps orphan ∅ = steps orphan
  /\ forall fuel, execute_workflow fuel "orphan" ∅ orphan_world = None.
Proof.
  split; [reflexivity|].
  refine (X11_optional_unattempted_steps_loop orphan "orphan" ∅ orphan_world
            _ _ _ _).
  - reflexivity.
  - reflexivity.
  - vm_compute. discriminate.
  - vm_compute. repeat constructor.
Defined.

(* ===================================================================== *)
(** * The order of a sequential run                                       *)
(* ===================================================================== *)

Lemma _execute_step_dispatches step ctx prev w :
  let '(w', out) := _execute_step step ctx prev w in
  match out with
  | inl _ => dispatched (trace w') = dispatched (trace w)
  | inr _ =>
      exists k, (k <= Z.to_nat (max_retries step))%nat
        /\ dispatched (trace w')
           = dispatched (trace w) ++ replicate (S k) (step_id step)
  end.
Proof.
  unfold _execute_step.
  destruct (agents w !! step_agent_id step) as [agent|] eqn:Hag; [|done].
  destruct (Z.to_nat (max_retries step + 1)) as [|n] eqn:Hn; [done|].
  destruct (retry_loop_spec step (step_agent_id step)
              (build_task step ctx prev) n agent 0 None w)
    as (w' & fails & r & a' & -> & _ & _ & _ & _ & Hk & _ & _ & _ & Hd); [lia|].
  exists (length fails). split; [lia|].
  rewrite !dispatched_task_ids, Hd, fmap_app, fmap_replicate. reflexivity.
Qed.

(** X12.  A sequential run dispatches the steps strictly in the order of
    the step list and never consults [depends_on]: the dispatched task
    ids are those of a prefix of the list, each repeated between one and
    [max_retries + 1] times in a row.  The prefix is the whole list when
    the run returns; it is shorter only when the run raises. *)
Theorem X12_sequential_dispatch_order todo ctx R w :
  let '(w', out) := sequential_loop todo ctx R w in
  exists counts : list nat,
    (length counts <= length todo)%nat
    /\ Forall2 (fun n s => (1 <= n <= Z.to_nat (max_retries s) + 1)%nat)
               counts (take (length counts) todo)
    /\ dispatched (trace w')
       = dispatched (trace w)
         ++ mjoin (zip_with replicate counts (step_id <$> todo))
    /\ (forall R', out = inr R' -> length counts = length todo).
Proof.
  revert R w. induction todo as [|s todo IH]; intros R w; cbn [sequential_loop].
  { exists []. cbn. rewrite app_nil_r.
    split_and!; [lia | constructor | done | done]. }
  pose proof (_execute_step_dispatches s ctx R w) as Hs.
  destruct (_execute_step s ctx R w) as [w1 [e|r]].
  { exists []. cbn. rewrite app_nil_r. split_and!; [lia | constructor | done |].
    discriminate. }
  destruct Hs as (k & Hk & Hd).
  destruct (bool_decide (res_status r = FAILED) && negb (optional s)).
  { exists [S k]. cbn [length take fmap list_fmap zip_with mjoin list_join].
    rewrite take_0, !app_nil_r.
    split_and!; [lia | constructor; [lia | constructor] | done | discriminate]. }
  specialize (IH (dict_set (step_agent_id s) r R) w1).
  destruct (sequential_loop todo ctx _ w1) as [w' out].
  destruct IH as (counts & Hlen & Hall & Hd' & Hout).
  exists (S k :: counts). cbn [length take fmap list_fmap zip_with mjoin list_join].
  split_and!.
  - lia.
  - constructor; [lia | exact Hall].
  - rewrite Hd', Hd, <- app_assoc. reflexivity.
  - intros R' HR'. by rewrite (Hout R' HR').
Qed.

(* ===================================================================== *)
(** * coordinate_agents on registered, distinct ids                       *)
(* ===================================================================== *)

Lemma create_tasks_registered ids goal ctx w :
  Forall (fun id => is_Some (agents w !! id)) ids ->
  create_tasks ids goal ctx w
  = omap (fun id => (fun agent => (id, agent, coordinate_task id goal ctx (now w)))
                      <$> agents w !! id) ids.
Proof.
  induction 1 as [|id ids [agent Hag] _ IH]; [reflexivity|].
  cbn. rewrite Hag. cbn. by rewrite IH.
Qed.

Lemma gather_tasks_distinct goal ctx (w0 : World) ids :
  forall w,
    NoDup ids ->
    (forall id, id ∈ ids -> agents w !! id = agents w0 !! id) ->
    Forall (fun id => is_Some (agents w0 !! id)) ids ->
    let tasks :=
      omap (fun id => (fun agent => (id, agent, coordinate_task id goal ctx (now w0)))
                        <$> agents w0 !! id) ids in
    exists w' rs,
      gather_tasks tasks w = (w', inr <$> rs)
      /\ dom (agents w') = dom (agents w)
      /\ (forall id, id ∉ ids -> agents w' !! id = agents w !! id)
      /\ Forall2 (fun id r =>
                    exists agent,
                      agents w0 !! id = Some agent
                      /\ r = (attempt agent (coordinate_task id goal ctx (now w0))).2
                      /\ agents w' !! id
                         = Some (attempt agent
                                   (coordinate_task id goal ctx (now w0))).1)
                 ids rs.
Proof.
  induction ids as [|id ids IH]; intros w Hnd Hsame Hreg; cbv zeta.
  { exists w, []. split_and!; [done | done | done | constructor]. }
  apply NoDup_cons in Hnd as [Hid Hnd].
  apply Forall_cons in Hreg as [[agent Hag] Hreg].
  cbn [omap list_omap]. rewrite Hag. cbn [fmap option_fmap option_map gather_tasks].
  rewrite (Hsame id) by left. rewrite Hag. cbn [default].
  change (Datatypes.id agent) with agent.
  destruct (call_process_task_attempt id agent
              (coordinate_task id goal ctx (now w0)) w) as (w1 & -> & Hags & _).
  destruct (IH w1 Hnd) as (w' & rs & Hg & Hdom & Hother & Hall).
  { intros id' Hid'. rewrite Hags, lookup_insert_ne by (intros ->; done).
    apply Hsame. by right. }
  { exact Hreg. }
  cbv zeta in Hg. rewrite Hg.
  exists w', ((attempt agent (coordinate_task id goal ctx (now w0))).2 :: rs).
  split_and!.
  - reflexivity.
  - rewrite Hdom, Hags, dom_insert_L.
    assert (id ∈ dom (agents w)).
    { apply elem_of_dom. rewrite (Hsame id) by left. eauto. }
    set_solver.
  - intros id' [Hne Hid']%not_elem_of_cons.
    rewrite (Hother id' Hid'), Hags. by apply lookup_insert_ne.
  - constructor; [|exact Hall]. exists agent. split_and!; [done | done |].
    rewrite (Hother id Hid), Hags. apply lookup_insert_eq.
Qed.

Lemma build_result_dictionary_distinct ids (rs : list AgentResult) :
  NoDup ids -> length ids = length rs ->
  build_result_dictionary (zip ids (inr <$> rs)) = zip ids rs.
Proof.
  unfold build_result_dictionary.
  assert (forall acc : list (string * AgentResult),
            NoDup ids -> length ids = length rs ->
            (forall id, id ∈ ids -> id ∉ acc.*1) ->
            fold_left
              (fun agent_results (pair : string * (exn + AgentResult)) =>
                 match pair.2 with
                 | inl _ => agent_results
                 | inr r => dict_set pair.1 r agent_results
                 end) (zip ids (inr <$> rs)) acc
            = acc ++ zip ids rs) as Hgen.
  { revert rs. induction ids as [|id ids IH]; intros rs acc Hnd Hlen Hfresh.
    { cbn. by rewrite app_nil_r. }
    destruct rs as [|r rs]; [discriminate|]. cbn.
    apply NoDup_cons in Hnd as [Hid Hnd].
    rewrite dict_set_fresh by (apply Hfresh; left).
    rewrite IH; [by rewrite <- app_assoc | done | by injection Hlen | ].
    intros id' Hid'. rewrite fmap_app. cbn. rewrite elem_of_app.
    intros [Hin|Hin%list_elem_of_singleton]; [|by subst].
    by apply (Hfresh id'); [right|]. }
  intros Hnd Hlen. apply (Hgen [] Hnd Hlen). intros id _. apply not_elem_of_nil.
Qed.

(** X13.  When the given ids are pairwise distinct and all registered,
    [coordinate_agents] returns one entry per id, in the order given, and
    the entry of an id is the result of that agent's own [process_task]
    on the task built for it; each agent has run exactly that one task
    and no agent is added or removed. *)
Theorem X13_coordinate_registered_distinct ids goal ctx w :
  NoDup ids ->
  Forall (fun id => is_Some (agents w !! id)) ids ->
  let '(w', results) := coordinate_agents ids goal ctx w in
  results.*1 = ids
  /\ dom (agents w') = dom (agents w)
  /\ forall id agent,
       id ∈ ids -> agents w !! id = Some agent ->
       let task := coordinate_task id goal ctx (now w) in
       dict_get id results = Some (attempt agent task).2
       /\ agents w' !! id = Some (attempt agent task).1
       /\ task_history (attempt agent task).1
          = task_history agent ++ [(attempt agent task).2].
Proof.
  intros Hnd Hreg. unfold coordinate_agents.
  rewrite (create_tasks_registered ids goal ctx w Hreg).
  destruct (gather_tasks_distinct goal ctx w ids w Hnd) as (w' & rs & Hg & Hdom & _ & Hall);
    [done | exact Hreg |].
  cbv zeta in Hg. rewrite Hg.
  assert (length ids = length rs) as Hlen by (by eapply Forall2_length).
  rewrite (build_result_dictionary_distinct ids rs Hnd Hlen).
  split_and!.
  - by rewrite fst_zip by lia.
  - exact Hdom.
  - intros id agent Hin Hag. cbv zeta.
    assert (dict_get id (zip ids rs)
            = Some (attempt agent (coordinate_task id goal ctx (now w))).2
            /\ agents w' !! id
               = Some (attempt agent (coordinate_task id goal ctx (now w))).1)
      as [? ?].
    { clear Hg Hlen Hdom Hreg. induction Hall as [|id0 r0 ids rs (a0 & Ha0 & -> & Hw') Hrest IH];
        [inversion Hin|].
      apply NoDup_cons in Hnd as [Hid0 Hnd]. cbn [zip zip_with dict_get].
      apply elem_of_cons in Hin as [->|Hin].
      - rewrite decide_True by done. rewrite Hag in Ha0. injection Ha0 as <-.
        by split.
      - rewrite decide_False by (intros ->; done). by apply IH. }
    split_and!; [done | done |].
    unfold attempt.
    pose proof (process_task_records agent
                  (coordinate_task id goal ctx (now w)) 0) as Hrec.
    by destruct (process_task agent (coordinate_task id goal ctx (now w)) 0)
      as [[[a' r'] ?] ?].
Qed.

Lemma X13_coordinate_registered_distinct_witness :
  let '(w', results) := coordinate_agents ["b"; "a"] "goal" ∅ (chain_world true) in
  results.*1 = ["b"; "a"]
  /\ dom (agents w') = dom (agents (chain_world true))
  /\ forall id agent,
       id ∈ ["b"; "a"] -> agents (chain_world true) !! id = Some agent ->
       let task := coordinate_task id "goal" ∅ (now (chain_world true)) in
       dict_get id results = Some (attempt agent task).2
       /\ agents w' !! id = Some (attempt agent task).1
       /\ task_history (attempt agent task).1
          = task_history agent ++ [(attempt agent task).2].
Proof.
  refine (X13_coordinate_registered_distinct ["b"; "a"] "goal" ∅
            (chain_world true) _ _).
  - refine (bool_decide_unpack _ _). vm_compute. exact I.
  - repeat constructor; vm_compute; eauto.
Defined.

(* ===================================================================== *)
(** * Mailboxes                                                           *)
(* ===================================================================== *)

Lemma queue_of_send key target message queues :
  queue_of key (send_message target message queues)
  = if decide (target = key) then queue_of key queues ++ [message]
    else queue_of key queues.
Proof.
  unfold send_message, queue_of at 1. rewrite lookup_insert.
  case_decide; [by subst | done].
Qed.

Lemma queue_of_broadcast_step sender type content w queues target key :
  queue_of key (broadcast_step sender type content w queues target)
  = queue_of key queues
    ++ (if bool_decide (target = key)
           && bool_decide (key <> sender /\ is_Some (agents w !! key))
        then [broadcast_message_to sender type content w key] else []).
Proof.
  unfold broadcast_step.
  destruct (decide (target = key)) as [->|Hne].
  - rewrite bool_decide_eq_true_2 by done. cbn [andb].
    destruct (decide (key = sender)) as [->|Hs].
    + rewrite bool_decide_eq_false_2 by tauto. by rewrite app_nil_r.
    + destruct (agents w !! key) as [agent|] eqn:Hag.
      * rewrite bool_decide_eq_true_2 by eauto.
        rewrite queue_of_send. by rewrite decide_True.
      * rewrite bool_decide_eq_false_2; [by rewrite app_nil_r|].
        intros [_ [? ?]]. done.
  - rewrite bool_decide_eq_false_2 by done. cbn [andb]. rewrite app_nil_r.
    destruct (decide (target = sender)); [done|].
    destruct (agents w !! target); [|done].
    rewrite queue_of_send. by rewrite decide_False.
Qed.

Lemma occurrences_NoDup key (l : list string) :
  NoDup l -> occurrences key l = if bool_decide (key ∈ l) then 1%nat else 0%nat.
Proof.
  unfold occurrences. induction 1 as [|x l Hx _ IH]; [done|]. cbn.
  destruct (decide (x = key)) as [->|Hne].
  - rewrite bool_decide_eq_true_2 by done.
    rewrite (bool_decide_eq_true_2 (key ∈ key :: l)) by left. cbn.
    rewrite IH. by rewrite bool_decide_eq_false_2.
  - rewrite bool_decide_eq_false_2 by done. rewrite IH.
    destruct (decide (key ∈ l)).
    + rewrite !bool_decide_eq_true_2; [done | by right | done].
    + rewrite !bool_decide_eq_false_2; [done | | done].
      intros [?|?]%elem_of_cons; by subst.
Qed.

(** X14.  [broadcast_message] appends to the queue of an agent one
    message per occurrence of its id among the targets when the agent is
    registered and is not the sender, and leaves every other queue as it
    was: the sender never receives its own broadcast and unknown ids are
    skipped.  Without targets, and also with an empty list of targets,
    every registered agent but the sender receives the message once. *)
Theorem X14_broadcast_delivery sender type content target_agents w queues key :
  let message := broadcast_message_to sender type content w key in
  let addressed := bool_decide (key <> sender /\ is_Some (agents w !! key)) in
  queue_of key (broadcast_message sender type content target_agents w queues)
  = queue_of key queues
    ++ (if addressed
        then replicate (occurrences key (broadcast_targets target_agents w)) message
        else [])
  /\ broadcast_message sender type content (Some []) w queues
     = broadcast_message sender type content None w queues
  /\ queue_of key (broadcast_message sender type content None w queues)
     = queue_of key queues ++ (if addressed then [message] else [])
  /\ sender_id message = sender /\ receiver_id message = key.
Proof.
  cbv zeta.
  assert (forall targets queues,
            queue_of key (fold_left (broadcast_step sender type content w)
                                    targets queues)
            = queue_of key queues
              ++ (if bool_decide (key <> sender /\ is_Some (agents w !! key))
                  then replicate (occurrences key targets)
                         (broadcast_message_to sender type content w key)
                  else [])) as Hgen.
  { induction targets as [|t targets IH]; intros q; cbn [fold_left].
    { unfold occurrences. cbn. by destruct (bool_decide _); rewrite app_nil_r. }
    rewrite IH, queue_of_broadcast_step. unfold occurrences. cbn [List.filter].
    destruct (bool_decide (t = key)); cbn [andb];
      destruct (bool_decide (key <> sender /\ _)); cbn;
      by rewrite <- ?app_assoc, ?app_nil_r. }
  split_and!; [apply Hgen | reflexivity | | reflexivity | reflexivity].
  unfold broadcast_message. rewrite Hgen.
  destruct (bool_decide (key <> sender /\ _)) eqn:Haddr; [|done].
  apply bool_decide_eq_true in Haddr as [_ Hreg].
  cbn [broadcast_targets].
  rewrite occurrences_NoDup by apply NoDup_fst_map_to_list.
  rewrite bool_decide_eq_true_2; [done|].
  destruct Hreg as [agent Hag]. apply list_elem_of_fmap.
  exists (key, agent). split; [done|]. by apply elem_of_map_to_list.
Qed.

Lemma queue_of_send_many key messages queues :
  queue_of key (fold_left (fun q m => send_message key m q) messages queues)
  = queue_of key queues ++ messages.
Proof.
  revert queues. induction messages as [|m messages IH]; intros queues;
    cbn [fold_left]; [by rewrite app_nil_r|].
  rewrite IH, queue_of_send, decide_True by done. by rewrite <- app_assoc.
Qed.

Lemma receive_many_delivers key timeout messages :
  forall queues,
    queue_of key queues = messages ->
    receive_many key timeout (length messages) queues
    = (Delivered <$> messages,
       if decide (messages = []) then queues else <[key := []]> queues).
Proof.
  induction messages as [|m messages IH]; intros queues Hq; [reflexivity|].
  cbn [length receive_many]. unfold receive_message. rewrite Hq.
  rewrite (IH (<[key := messages]> queues)).
  - cbn. f_equal. destruct messages; cbn; [done|]. by rewrite insert_insert_eq.
  - unfold queue_of. by rewrite lookup_insert_eq.
Qed.

(** X15.  A queue is first-in first-out.  After messages are sent to an
    agent whose queue was empty, as many [receive_message] calls return
    exactly those messages in the order sent and empty the queue again;
    the next call, finding the queue empty, returns [None] when given a
    positive timeout and otherwise (no timeout, or timeout 0) waits for
    ever.  Queues of other agents are not touched. *)
Theorem X15_mailbox_fifo key timeout messages queues :
  queue_of key queues = [] ->
  let sent := fold_left (fun q m => send_message key m q) messages queues in
  let '(got, remaining) := receive_many key timeout (length messages) sent in
  got = Delivered <$> messages
  /\ queue_of key remaining = []
  /\ (forall other, other <> key -> queue_of other remaining = queue_of other queues)
  /\ receive_message key timeout remaining
     = (match timeout with
        | Some (Npos _) => NothingReceived
        | _ => WaitsForever
        end, remaining).
Proof.
  intros Hempty. cbv zeta.
  pose proof (queue_of_send_many key messages queues) as Hsent.
  rewrite Hempty in Hsent. cbn [app] in Hsent.
  rewrite (receive_many_delivers key timeout messages _ Hsent).
  assert (forall other, other <> key ->
            queue_of other (fold_left (fun q m => send_message key m q)
                                      messages queues)
            = queue_of other queues) as Hother.
  { intros other Hne. clear Hsent Hempty. revert queues.
    induction messages as [|m messages IH]; intros queues; cbn [fold_left];
      [done|].
    rewrite IH, queue_of_send. by rewrite decide_False. }
  destruct (decide (messages = [])) as [->|Hne].
  - cbn. split_and!; [done | done | done |].
    unfold receive_message. rewrite Hempty. by destruct timeout as [[|]|].
  - assert (queue_of key (<[key := []]>
              (fold_left (fun q m => send_message key m q) messages queues))
            = []) as Hk by (unfold queue_of; by rewrite lookup_insert_eq).
    split_and!; [done | done | |].
    + intros other Ho. unfold queue_of at 1.
      rewrite lookup_insert_ne by done. by apply Hother.
    + unfold receive_message. rewrite Hk. by destruct timeout as [[|]|].
Qed.

Lemma X15_mailbox_fifo_witness :
  let first := broadcast_message_to "a" "ping" ∅ empty_world "b" in
  let second := broadcast_message_to "c" "pong" ∅ empty_world "b" in
  let sent := fold_left (fun q m => send_message "b" m q) [first; second] ∅ in
  let '(got, remaining) := receive_many "b" (Some 5%N) 2 sent in
  got = [Delivered first; Delivered second]
  /\ queue_of "b" remaining = []
  /\ (forall other, other <> "b" -> queue_of other remaining = queue_of other ∅)
  /\ receive_message "b" (Some 5%N) remaining = (NothingReceived, remaining).
Proof.
  refine (X15_mailbox_fifo "b" (Some 5%N)
            [broadcast_message_to "a" "ping" ∅ empty_world "b";
             broadcast_message_to "c" "pong" ∅ empty_world "b"] ∅ _).
  reflexivity.
Defined.

(* ===================================================================== *)
(** * The default configuration and the predefined workflow               *)
(* ===================================================================== *)

Lemma check_dependencies_first_sound items :
  forall seen,
    check_dependencies_first seen items = true ->
    forall l1 item l2, items = l1 ++ item :: l2 ->
      forall d, d ∈ item.2 -> d ∈ seen ++ l1.*1.
Proof.
  induction items as [|x items IH]; intros seen Hcheck l1 item l2 Heq d Hd.
  { by destruct l1. }
  cbn in Hcheck. apply andb_true_iff in Hcheck as [Hx Hrest].
  destruct l1 as [|y l1]; cbn in Heq; injection Heq as -> ->.
  - rewrite forallb_forall in Hx. cbn. rewrite app_nil_r.
    eapply bool_decide_eq_true_1, Hx. by apply list_elem_of_In.
  - rewrite fmap_cons, (cons_middle y.1 seen), (assoc_L (++) seen [y.1]).
    eapply (IH _ Hrest l1 item l2); done.
Qed.

Lemma check_dependencies_first_correct items :
  check_dependencies_first [] items = true -> dependencies_first items.
Proof.
  intros Hcheck l1 item l2 Heq d Hd.
  exact (check_dependencies_first_sound items [] Hcheck l1 item l2 Heq d Hd).
Qed.

Lemma deps_respected_of_items (l : list WorkflowStep) :
  dependencies_first ((fun s => (step_id s, depends_on s)) <$> l) ->
  deps_respected l.
Proof.
  intros Hitems l1 s l2 -> d Hd.
  specialize (Hitems ((fun s => (step_id s, depends_on s)) <$> l1)
                (step_id s, depends_on s)
                ((fun s => (step_id s, depends_on s)) <$> l2)).
  rewrite fmap_app in Hitems. specialize (Hitems eq_refl d Hd).
  by rewrite <- list_fmap_compose in Hitems.
Qed.

Lemma dict_get_elem {V} k (v : V) d : dict_get k d = Some v -> (k, v) ∈ d.
Proof.
  induction d as [|[k' v'] d IH]; cbn; [done|].
  case_decide; [intros [= ->]; subst; left | right; auto].
Qed.

Lemma dict_get_is_Some {V} k (d : list (string * V)) :
  is_Some (dict_get k d) <-> k ∈ d.*1.
Proof.
  induction d as [|[k' v'] d IH]; cbn.
  - rewrite elem_of_nil. split; [by intros [? ?] | done].
  - rewrite elem_of_cons. case_decide; subst; [split; eauto|].
    rewrite IH. split; [auto | intros [?|?]; [by subst | done]].
Qed.

(** X16.  [get_execution_order] is a topological order of the default
    agent configuration, as its comment says: it lists every configured
    agent exactly once, each after all the agents its configuration
    declares as dependencies; and [get_agent_config] finds, for exactly
    these ids, a configuration carrying the id it is stored under. *)
Theorem X16_execution_order_topological :
  NoDup get_execution_order
  /\ get_execution_order ≡ₚ DEFAULT_AGENTS.*1
  /\ dependencies_first
       ((fun id => (id, configured_dependencies id)) <$> get_execution_order)
  /\ (forall id, id ∈ get_execution_order <-> is_Some (get_agent_config id))
  /\ (forall id c, get_agent_config id = Some c -> config_agent_id c = id).
Proof.
  assert (NoDup get_execution_order) as Hnd.
  { refine (bool_decide_unpack _ _). vm_compute. exact I. }
  assert (get_execution_order ≡ₚ DEFAULT_AGENTS.*1) as Hperm.
  { apply NoDup_Permutation; [exact Hnd | |].
    - refine (bool_decide_unpack _ _). vm_compute. exact I.
    - intros id. split; intros Hin.
      + assert (Forall (fun x => x ∈ DEFAULT_AGENTS.*1) get_execution_order) as Hall
          by (refine (bool_decide_unpack _ _); vm_compute; exact I).
        rewrite Forall_forall in Hall. by apply Hall.
      + assert (Forall (fun x => x ∈ get_execution_order) DEFAULT_AGENTS.*1) as Hall
          by (refine (bool_decide_unpack _ _); vm_compute; exact I).
        rewrite Forall_forall in Hall. by apply Hall. }
  split_and!; [exact Hnd | exact Hperm | | |].
  - apply check_dependencies_first_correct. vm_compute. reflexivity.
  - intros id. unfold get_agent_config. rewrite dict_get_is_Some.
    by rewrite Hperm.
  - intros id c Hc%dict_get_elem.
    assert (Forall (fun item => config_agent_id item.2 = item.1) DEFAULT_AGENTS)
      as Hall by (repeat constructor).
    rewrite Forall_forall in Hall. exact (Hall _ Hc).
Qed.

Lemma analysis_ids_distinct :
  NoDup (step_id <$> steps create_complete_analysis_workflow).
Proof. refine (bool_decide_unpack _ _). vm_compute. exact I. Qed.

Lemma analysis_agents_distinct :
  NoDup (step_agent_id <$> steps create_complete_analysis_workflow).
Proof. refine (bool_decide_unpack _ _). vm_compute. exact I. Qed.

Lemma analysis_deps_respected :
  deps_respected (steps create_complete_analysis_workflow).
Proof.
  apply deps_respected_of_items, check_dependencies_first_correct.
  vm_compute. reflexivity.
Qed.

(** X17.  The predefined "complete_analysis" workflow is well formed and
    mirrors the default configuration: its step ids are pairwise
    distinct, so are its agents, every dependency names an earlier step,
    its agents in step order are [get_execution_order], and the agents of
    the steps a step depends on are the dependencies configured for the
    step's agent.  Every step is required and retried up to 3 times. *)
Theorem X17_complete_analysis_well_formed :
  let wf := create_complete_analysis_workflow in
  NoDup (step_id <$> steps wf)
  /\ NoDup (step_agent_id <$> steps wf)
  /\ deps_respected (steps wf)
  /\ step_agent_id <$> steps wf = get_execution_order
  /\ Forall (fun s => omap (agent_of_step wf) (depends_on s)
                      = configured_dependencies (step_agent_id s)) (steps wf)
  /\ Forall (fun s => optional s = false /\ retry_on_failure s = true
                      /\ max_retries s = 3) (steps wf)
  /\ parallel_execution wf = true.
Proof.
  cbv zeta. split_and!.
  - exact analysis_ids_distinct.
  - exact analysis_agents_distinct.
  - exact analysis_deps_respected.
  - reflexivity.
  - repeat constructor.
  - repeat constructor.
  - reflexivity.
Qed.

(* ===================================================================== *)
(** * Dependencies in a parallel run                                      *)
(* ===================================================================== *)

Lemma gather_steps_dispatches ctx prev ready :
  forall w,
    let '(w', outs) := gather_steps ready ctx prev w in
    length outs = length ready
    /\ exists D, (dispatched (trace w') = dispatched (trace w) ++ D)
         /\ (forall id, id ∈ D -> id ∈ step_id <$> ready)
         /\ (forall s r, (s, inr r) ∈ zip ready outs -> step_id s ∈ D).
Proof.
  induction ready as [|s ready IH]; intros w; cbn.
  { split; [done|]. exists []. rewrite app_nil_r. split_and!; [done| |].
    - intros id Hid. inversion Hid.
    - intros s r Hin. inversion Hin. }
  pose proof (_execute_step_dispatches s ctx prev w) as Hs.
  destruct (_execute_step s ctx prev w) as [w1 out].
  specialize (IH w1). destruct (gather_steps ready ctx prev w1) as [w2 outs].
  destruct IH as (Hlen & D & HD & Hids & Hret). cbn. split; [by rewrite Hlen|].
  destruct out as [e|r].
  - exists D. rewrite HD, Hs. split_and!; [done| |].
    + intros id Hid. right. by apply Hids.
    + intros s' r' Hin. apply elem_of_cons in Hin as [Heq|Hin]; [discriminate Heq|].
      by apply (Hret s' r').
  - destruct Hs as (k & _ & Hs).
    exists (replicate (S k) (step_id s) ++ D).
    rewrite HD, Hs, <- (assoc_L (++)). split_and!; [done| |].
    + intros id [Hid|Hid]%elem_of_app.
      * apply elem_of_replicate in Hid as [-> _]. left.
      * right. by apply Hids.
    + intros s' r' Hin. apply elem_of_cons in Hin as [[= -> _]|Hin].
      * apply elem_of_app. left. cbn. left.
      * apply elem_of_app. right. by apply (Hret s' r').
Qed.

Lemma process_results_completed pairs :
  forall R C R' C',
    process_results pairs R C = inr (R', C') ->
    forall c, c ∈ C' -> c ∈ C \/ exists s r, (s, inr r) ∈ pairs /\ step_id s = c.
Proof.
  induction pairs as [|[s [e|r]] pairs IH]; intros R C R' C' Hp c Hc; cbn in Hp.
  - injection Hp as <- <-. by left.
  - destruct (negb (optional s)); [done|].
    destruct (IH _ _ _ _ Hp c Hc) as [?|(s' & r' & Hin & Hid)]; [by left|].
    right. exists s', r'. split; [by right | done].
  - destruct (IH _ _ _ _ Hp c Hc) as [Hin|(s' & r' & Hin & Hid)].
    + apply elem_of_union in Hin as [->%elem_of_singleton|Hin]; [|by left].
      right. exists s, r. split; [left | done].
    + right. exists s', r'. split; [by right | done].
Qed.

Lemma ready_steps_spec wf (C : gset string) s :
  s ∈ ready_steps wf C ->
  s ∈ steps wf /\ (step_id s ∉ C) /\ (forall d, d ∈ depends_on s -> d ∈ C).
Proof.
  unfold ready_steps. rewrite elem_of_filter_bool. intros [Hs Hr].
  unfold is_ready in Hr. apply andb_true_iff in Hr as [Hn Hd].
  split_and!; [done | by apply bool_decide_eq_true_1 in Hn |].
  intros d Hin. rewrite forallb_forall in Hd.
  by eapply bool_decide_eq_true_1, Hd, list_elem_of_In.
Qed.

Lemma parallel_loop_order wf ctx :
  forall fuel R (C : gset string) w w' out D0,
    parallel_loop fuel wf ctx R C w = Some (w', out) ->
    (forall c, c ∈ C -> c ∈ D0) ->
    exists D,
      dispatched (trace w') = dispatched (trace w) ++ D
      /\ forall i id, D !! i = Some id ->
           exists s, s ∈ steps wf /\ step_id s = id
                     /\ forall d, d ∈ depends_on s -> d ∈ D0 ++ take i D.
Proof.
  assert (forall w : World, exists D : list string,
            dispatched (trace w) = dispatched (trace w) ++ D
            /\ forall i id, D !! i = Some id ->
                 exists s, s ∈ steps wf /\ step_id s = id
                   /\ forall d, d ∈ depends_on s -> d ∈ @nil string) as Hstop.
  { intros w. exists []. rewrite app_nil_r. split; [done|]. intros i id Hi.
    by rewrite lookup_nil in Hi. }
  induction fuel as [|fuel IH]; intros R C w w' out D0 Hloop HC; [done|].
  cbn [parallel_loop] in Hloop.
  destruct (size C <? length (steps wf))%nat.
  2:{ injection Hloop as <- <-. exists []. rewrite app_nil_r.
      split; [done|]. intros i id Hi. by rewrite lookup_nil in Hi. }
  destruct (ready_steps wf C) as [|s0 ready0] eqn:Hready.
  { injection Hloop as <- <-. exists []. rewrite app_nil_r.
    split; [done|]. intros i id Hi. by rewrite lookup_nil in Hi. }
  rewrite <- Hready in Hloop.
  pose proof (gather_steps_dispatches ctx R (ready_steps wf C) w) as Hg.
  destruct (gather_steps (ready_steps wf C) ctx R w) as [w1 outs].
  destruct Hg as (Hlen & D1 & HD1 & Hids & Hret).
  assert (forall i id, D1 !! i = Some id ->
            exists s, s ∈ steps wf /\ step_id s = id
                      /\ forall d, d ∈ depends_on s -> d ∈ D0 ++ take i D1) as Hwave.
  { intros i id Hi. apply list_elem_of_lookup_2, Hids in Hi.
    apply list_elem_of_fmap in Hi as (s & -> & Hs).
    apply ready_steps_spec in Hs as (Hs & _ & Hdeps).
    exists s. split_and!; [done..|]. intros d Hd. apply elem_of_app. left. auto. }
  destruct (process_results (zip (ready_steps wf C) outs) R C)
    as [e|[R1 C1]] eqn:Hp.
  { injection Hloop as <- <-. exists D1. split; done. }
  destruct (IH R1 C1 w1 w' out (D0 ++ D1) Hloop) as (D2 & HD2 & Hrest).
  { intros c Hc. apply elem_of_app.
    destruct (process_results_completed _ _ _ _ _ Hp c Hc)
      as [Hin|(s & r & Hin & <-)]; [left; auto | right; eauto]. }
  exists (D1 ++ D2). rewrite HD2, HD1, <- (assoc_L (++)). split; [done|].
  intros i id Hi. apply lookup_app_Some in Hi as [Hi|[Hge Hi]].
  - rewrite take_app_le by (apply lookup_lt_Some in Hi; lia). by apply Hwave.
  - destruct (Hrest _ _ Hi) as (s & Hs & Hid & Hdeps).
    exists s. split_and!; [done..|]. intros d Hd.
    rewrite take_app_ge by done. rewrite (assoc_L (++)). by apply Hdeps.
Qed.



(* ===================================================================== *)
(** * The predefined workflow at run time                                 *)
(* ===================================================================== *)

Lemma analysis_runnable w :
  Forall (fun a => is_Some (agents w !! a)) get_execution_order ->
  Forall (runnable w) (steps create_complete_analysis_workflow).
Proof.
  intros Hreg. rewrite Forall_forall in Hreg.
  apply Forall_forall. intros s Hs. split.
  - apply elem_of_dom, Hreg.
    change get_execution_order
      with (step_agent_id <$> steps create_complete_analysis_workflow).
    by apply list_elem_of_fmap_2.
  - revert s Hs. apply Forall_forall. repeat constructor; cbn; lia.
Qed.


